(** * J-cut / L-cut engine: clip pairs, boundaries and cut transforms

    A shallow embedding of [resolve_parse.py] (property access on clip
    elements), [cuts_model.py] (clip pairs, alignment, boundary detection,
    offset pre-check) and [cuts_transform.py] (J-cut, L-cut, batch
    application), followed by the properties of the engine.

    Clip elements are mutable XML nodes shared by reference between the
    timeline tree, the clip pairs and the boundaries.  They live in a store
    indexed by addresses; clip pairs hold addresses, so that two pairs naming
    the same audio element observe each other's mutations.

    Python integers are unbounded and are modelled by [Z].  The element
    text is a string of bytes holding UTF-8; [int] reads sign, underscores,
    white space and decimal digits of every script (Unicode 14.0), and
    [str.upper] is modelled on ASCII.  Property names are plain tags, as at
    every call in the code, so that [Element.find] compares tags.

    The engine is modelled twice.  The first model is the code under an
    interpreter whose limit on the digits converted between [int] and
    [str] is switched off: every conversion of a number succeeds and the
    transforms are total functions.  The second, [Limited], is the same
    code under a limit (4300 digits by default), where a conversion can
    raise [ValueError]; with the limit at 0 it is the first model. *)

From Stdlib Require Import Ascii DecimalString DecimalZ.
From stdpp Require Import gmap strings list fin_maps sorting.

Local Open Scope string_scope.
Local Open Scope Z_scope.

(* ===================================================================== *)
(** ** Python's [int(text)], [str(n)] and [str.upper] *)
(* ===================================================================== *)

Module PyInt.

(** The characters [int] skips at both ends of an ASCII text: tab, line
    feed, vertical tab, form feed, carriage return and space. *)
Definition is_space (c : ascii) : bool :=
  let n := nat_of_ascii c in
  ((9 <=? n)%nat && (n <=? 13)%nat) || (n =? 32)%nat.

Definition is_digit (c : ascii) : bool :=
  let n := nat_of_ascii c in (48 <=? n)%nat && (n <=? 57)%nat.

Fixpoint lstrip (s : string) : string :=
  match s with
  | String c r => if is_space c then lstrip r else s
  | EmptyString => EmptyString
  end.

Fixpoint rstrip (s : string) : string :=
  match s with
  | EmptyString => EmptyString
  | String c r =>
      match rstrip r with
      | EmptyString => if is_space c then EmptyString else String c EmptyString
      | r' => String c r'
      end
  end.

Definition strip (s : string) : string := rstrip (lstrip s).

(** The digit group of an integer literal: digits, with single underscores
    allowed between two digits.  The underscores are dropped.
    [after_digit] tells whether the previous character was a digit. *)
Fixpoint digits (after_digit : bool) (s : string) : option string :=
  match s with
  | EmptyString => if after_digit then Some EmptyString else None
  | String c r =>
      if is_digit c then String c <$> digits true r
      else if Ascii.eqb c "_"%char && after_digit then digits false r
      else None
  end.

Definition unsigned (s : string) : option Z :=
  d ← digits false s; Z.of_uint <$> NilEmpty.uint_of_string d.

(** An ASCII text read as a decimal integer: white space, an optional
    sign, the digit group, white space. *)
Definition parse_ascii (s : string) : option Z :=
  match strip s with
  | String "+"%char r => unsigned r
  | String "-"%char r => Z.opp <$> unsigned r
  | r => unsigned r
  end.

(** *** Text outside ASCII

    A text is held as its UTF-8 bytes.  When it has a character outside
    ASCII, [int] first rewrites it: a character below 127 is kept, a
    Unicode space becomes a space, a Unicode decimal digit becomes the
    ASCII digit of its value, and at any other character the text ends in
    a question mark (which no integer literal contains). *)

Fixpoint is_ascii (s : string) : bool :=
  match s with
  | EmptyString => true
  | String c r => (nat_of_ascii c <? 128)%nat && is_ascii r
  end.

(** The characters outside ASCII for which [str.isspace] holds. *)
Definition unicode_spaces : list N :=
  [133; 160; 5760; 8192; 8193; 8194; 8195; 8196; 8197; 8198; 8199; 8200;
   8201; 8202; 8232; 8233; 8239; 8287; 12288]%N.

(** The characters outside ASCII whose decimal digit value is 0 (Unicode
    14.0); the nine characters after each of them are its digits 1 to 9. *)
Definition decimal_zeros : list N :=
  [1632; 1776; 1984; 2406; 2534; 2662; 2790; 2918; 3046; 3174; 3302; 3430;
   3558; 3664; 3792; 3872; 4160; 4240; 6112; 6160; 6470; 6608; 6784; 6800;
   6992; 7088; 7232; 7248; 42528; 43216; 43264; 43472; 43504; 43600; 44016;
   65296; 66720; 68912; 69734; 69872; 69942; 70096; 70384; 70736; 70864;
   71248; 71360; 71472; 71904; 72016; 72784; 73040; 73120; 92768; 92864;
   93008; 120782; 120792; 120802; 120812; 120822; 123200; 123632; 125264;
   130032]%N.

Definition is_unicode_space (cp : N) : bool :=
  existsb (N.eqb cp) unicode_spaces.

Definition decimal_value (cp : N) : option N :=
  (λ zero, cp - zero)%N
    <$> List.find (λ zero, (zero <=? cp)%N && (cp <? zero + 10)%N)
                  decimal_zeros.

(** The six low bits of a continuation byte; for a byte that is none, a
    number that takes the code point out of the two tables. *)
Definition continuation (c : ascii) : N :=
  let n := N_of_ascii c in
  if (128 <=? n)%N && (n <? 192)%N then (n - 128)%N else 1114112%N.

(** What a character outside ASCII is rewritten to, before [rest]. *)
Definition rewrite_char (cp : N) (rest : string) : string :=
  if is_unicode_space cp then String " " rest
  else match decimal_value cp with
       | Some d => String (ascii_of_N (48 + d)) rest
       | None => "?"
       end.

Fixpoint to_ascii (s : string) : string :=
  match s with
  | EmptyString => EmptyString
  | String c r =>
      let n := N_of_ascii c in
      if (n <? 127)%N then String c (to_ascii r)
      else
        match r with
        | String c1 r1 =>
            if (194 <=? n)%N && (n <? 224)%N then
              rewrite_char ((n - 192) * 64 + continuation c1)%N (to_ascii r1)
            else
              match r1 with
              | String c2 r2 =>
                  if (224 <=? n)%N && (n <? 240)%N then
                    rewrite_char
                      (((n - 224) * 64 + continuation c1) * 64
                       + continuation c2)%N
                      (to_ascii r2)
                  else
                    match r2 with
                    | String c3 r3 =>
                        if (240 <=? n)%N && (n <? 245)%N then
                          rewrite_char
                            ((((n - 240) * 64 + continuation c1) * 64
                              + continuation c2) * 64 + continuation c3)%N
                            (to_ascii r3)
                        else "?"
                    | EmptyString => "?"
                    end
              | EmptyString => "?"
              end
        | EmptyString => "?"
        end
  end.

Definition ascii_form (s : string) : string :=
  if is_ascii s then s else to_ascii s.

(** [int(s)] in base 10; [None] stands for [ValueError]. *)
Definition int (s : string) : option Z := parse_ascii (ascii_form s).

(** [str(n)]. *)
Definition str (n : Z) : string := NilZero.string_of_int (Z.to_int n).

End PyInt.

(** [str.upper] on ASCII letters; other bytes are kept. *)
Definition upper_char (c : ascii) : ascii :=
  let n := nat_of_ascii c in
  if (97 <=? n)%nat && (n <=? 122)%nat then ascii_of_nat (n - 32) else c.

Fixpoint upper (s : string) : string :=
  match s with
  | EmptyString => EmptyString
  | String c r => String (upper_char c) (upper r)
  end.

(* ===================================================================== *)
(** ** resolve_parse.py: clip elements and their properties *)
(* ===================================================================== *)

(** A property of a clip is a child element of the clip element: a tag and
    the element's text ([None] for a self-closing element). *)
Record Element := mkElement { tag : string; text : option string }.

(** A clip element ([Sm2TiVideoClip] or [Sm2TiAudioClip]) is given by its
    children, in document order.  Several children may carry the same tag. *)
Abbreviation Clip := (list Element).

(** References to clip elements. *)
Abbreviation addr := positive.

(** The elements of the timeline documents in memory. *)
Abbreviation Store := (gmap addr Clip).

(** The element a reference points to.  A Python reference always points
    to an object; a reference the store does not know reads as an element
    without children, on which [find] finds nothing and a write is lost. *)
Definition clip_at (h : Store) (clip : addr) : Clip := default [] (h !! clip).

(** [clip.find(property_name)] for a property name that is a plain tag, as
    are the names the code passes ([Name], [MediaRef], [Start], [Duration],
    [In]): the first child with that tag.  ([Element.find] reads its
    argument as a path expression; see [plain_tag].) *)
Fixpoint find (property_name : string) (clip : Clip) : option Element :=
  match clip with
  | [] => None
  | e :: rest =>
      if String.eqb (tag e) property_name then Some e
      else find property_name rest
  end.

(** [element.text = value] on the element [clip.find(property_name)]
    returns, if any, for a property name that is a plain tag. *)
Fixpoint set_text (property_name value : string) (clip : Clip) : Clip :=
  match clip with
  | [] => []
  | e :: rest =>
      if String.eqb (tag e) property_name
      then mkElement (tag e) (Some value) :: rest
      else e :: set_text property_name value rest
  end.

Definition get_clip_property (h : Store) (clip : addr) (property_name : string)
  : option string :=
  match find property_name (clip_at h clip) with
  | None => None
  | Some element =>
      Some (match text element with Some t => t | None => "" end)
  end.

Definition parse_int_property (h : Store) (clip : addr) (property_name : string)
    (default : Z) : Z :=
  match get_clip_property h clip property_name with
  | None => default
  | Some value =>
      if String.eqb value "" then default
      else match PyInt.int value with
           | Some n => n
           | None => default
           end
  end.

(** Computations that may mutate clip elements. *)
Definition M (A : Type) : Type := Store → A * Store.

#[export] Instance M_ret : MRet M := λ A a h, (a, h).
#[export] Instance M_bind : MBind M :=
  λ A B k m h, let '(a, h') := m h in k a h'.

(** Run a read-only function on the current store. *)
Definition reads {A} (f : Store → A) : M A := λ h, (f h, h).

Definition set_clip_property (clip : addr) (property_name value : string)
  : M unit :=
  λ h, (tt, alter (set_text property_name value) clip h).

(* ===================================================================== *)
(** ** cuts_model.py *)
(* ===================================================================== *)

Record ClipPair := mkClipPair {
  video_clip : addr;
  audio_clip : addr;
  name : string;
  start : Z;
  duration : Z;
  in_point : Z;
  media_ref : string
}.

Record Boundary := mkBoundary {
  clip_pair_before : ClipPair;
  clip_pair_after : ClipPair;
  cut_frame : Z
}.

(** [x or ""] on an optional string. *)
Definition or_empty (x : option string) : string :=
  match x with Some s => s | None => "" end.

(** The matching key [(name, media_ref, start)] of a clip. *)
Definition clip_key (h : Store) (clip : addr) : string * string * Z :=
  (or_empty (get_clip_property h clip "Name"),
   or_empty (get_clip_property h clip "MediaRef"),
   parse_int_property h clip "Start" 0).

(** [pairs.sort(key=lambda p: p.start)]: a stable sort; insertion into the
    sorted tail puts a pair before the pairs of the tail with the same
    start, which followed it in the input. *)
Fixpoint insert_by_start (p : ClipPair) (l : list ClipPair) : list ClipPair :=
  match l with
  | [] => [p]
  | q :: r => if start p <=? start q then p :: q :: r
              else q :: insert_by_start p r
  end.

Definition sort_by_start (l : list ClipPair) : list ClipPair :=
  foldr insert_by_start [] l.

Definition find_clip_pairs (h : Store) (video_clips audio_clips : list addr)
  : list ClipPair :=
  let audio_lookup : gmap (string * string * Z) addr :=
    foldl (λ lookup audio_clip, <[clip_key h audio_clip := audio_clip]> lookup)
          ∅ audio_clips in
  let pairs :=
    omap (λ video_clip,
            let name := or_empty (get_clip_property h video_clip "Name") in
            let media_ref := or_empty (get_clip_property h video_clip "MediaRef") in
            let start := parse_int_property h video_clip "Start" 0 in
            let duration := parse_int_property h video_clip "Duration" 0 in
            let in_point := parse_int_property h video_clip "In" 0 in
            let key := (name, media_ref, start) in
            match audio_lookup !! key with
            | Some audio_clip =>
                Some (mkClipPair video_clip audio_clip name start duration
                                 in_point media_ref)
            | None => None
            end)
         video_clips in
  sort_by_start pairs.

Definition is_aligned (h : Store) (clip_pair : ClipPair) : bool :=
  let video := video_clip clip_pair in
  let audio := audio_clip clip_pair in
  let v_start := parse_int_property h video "Start" 0 in
  let a_start := parse_int_property h audio "Start" 0 in
  let v_duration := parse_int_property h video "Duration" 0 in
  let a_duration := parse_int_property h audio "Duration" 0 in
  let v_in := parse_int_property h video "In" 0 in
  let a_in := parse_int_property h audio "In" 0 in
  (v_start =? a_start) && (v_duration =? a_duration) && (v_in =? a_in).

(** The body of the loop of [find_eligible_boundaries] at index [i]: the
    boundary appended in that iteration, if any. *)
Definition boundary_at (h : Store) (clip_pairs : list ClipPair) (max_gap : Z)
    (i : nat) : option Boundary :=
  current_pair ← clip_pairs !! i;
  next_pair ← clip_pairs !! S i;
  if negb (is_aligned h current_pair) then None
  else if negb (is_aligned h next_pair) then None
  else
    let cut_frame := start current_pair + duration current_pair in
    let gap := start next_pair - cut_frame in
    if (0 <=? gap) && (gap <=? max_gap)
    then Some (mkBoundary current_pair next_pair cut_frame)
    else None.

(** [for i in range(len(clip_pairs) - 1)]: the range is empty for an empty
    list, as the truncated subtraction on [nat] gives. *)
Definition find_eligible_boundaries (h : Store) (clip_pairs : list ClipPair)
    (max_gap : Z) : list Boundary :=
  omap (boundary_at h clip_pairs max_gap) (seq 0 (length clip_pairs - 1)).


(* ===================================================================== *)
(** ** cuts_transform.py *)
(* ===================================================================== *)

Definition apply_j_cut (boundary : Boundary) (offset : Z) (dry_run : bool)
  : M (bool * string) :=
  if offset <=? 0 then mret (false, "Offset must be positive")
  else
    let audio_clip := audio_clip (clip_pair_after boundary) in
    current_start ← reads (λ h, parse_int_property h audio_clip "Start" 0);
    current_duration ← reads (λ h, parse_int_property h audio_clip "Duration" 0);
    current_in ← reads (λ h, parse_int_property h audio_clip "In" 0);
    let new_start := current_start - offset in
    let new_duration := current_duration + offset in
    let new_in := current_in - offset in
    if new_start <? 0 then
      mret (false, "J-cut would push Start below 0 (new Start="
                   +:+ PyInt.str new_start +:+ ")")
    else if new_in <? 0 then
      mret (false, "J-cut would push In below 0 (new In=" +:+ PyInt.str new_in
                   +:+ "). Clip may not have enough source media before the cut point.")
    else if current_duration <? offset then
      mret (false, "Clip too short for offset " +:+ PyInt.str offset
                   +:+ " (duration=" +:+ PyInt.str current_duration +:+ ")")
    else
      (if negb dry_run then
         set_clip_property audio_clip "Start" (PyInt.str new_start);;
         set_clip_property audio_clip "Duration" (PyInt.str new_duration);;
         set_clip_property audio_clip "In" (PyInt.str new_in)
       else mret tt);;
      let clip_name := name (clip_pair_after boundary) in
      let message :=
        "J-cut applied to '" +:+ clip_name
        +:+ "': Start " +:+ PyInt.str current_start +:+ "→" +:+ PyInt.str new_start
        +:+ ", Duration " +:+ PyInt.str current_duration +:+ "→" +:+ PyInt.str new_duration
        +:+ ", In " +:+ PyInt.str current_in +:+ "→" +:+ PyInt.str new_in in
      mret (true, message).

Definition apply_l_cut (boundary : Boundary) (offset : Z) (dry_run : bool)
  : M (bool * string) :=
  if offset <=? 0 then mret (false, "Offset must be positive")
  else
    let audio_clip := audio_clip (clip_pair_before boundary) in
    current_duration ← reads (λ h, parse_int_property h audio_clip "Duration" 0);
    current_in ← reads (λ h, parse_int_property h audio_clip "In" 0);
    let new_duration := current_duration + offset in
    if current_duration <? 1 then
      mret (false, "Clip too short (duration=" +:+ PyInt.str current_duration
                   +:+ ")")
    else
      (if negb dry_run then
         set_clip_property audio_clip "Duration" (PyInt.str new_duration)
       else mret tt);;
      let clip_name := name (clip_pair_before boundary) in
      let message :=
        "L-cut applied to '" +:+ clip_name
        +:+ "': Duration " +:+ PyInt.str current_duration +:+ "→"
        +:+ PyInt.str new_duration in
      mret (true, message).

Definition validate_j_cut (boundary : Boundary) (offset : Z)
  : M (bool * string) := apply_j_cut boundary offset true.

Definition validate_l_cut (boundary : Boundary) (offset : Z)
  : M (bool * string) := apply_l_cut boundary offset true.

(** The [results] dictionary of [apply_cuts_to_timeline]. *)
Record Results := mkResults {
  success_count : Z;
  fail_count : Z;
  messages : list string;
  successful_boundaries : list Boundary
}.

(** The loop [for i, boundary in enumerate(boundaries)], from index [i] on. *)
Fixpoint cuts_loop (cut_function : Boundary → Z → bool → M (bool * string))
    (offset : Z) (dry_run : bool) (i : nat) (boundaries : list Boundary)
    (results : Results) : M Results :=
  match boundaries with
  | [] => mret results
  | boundary :: rest =>
      let boundary_num := Z.of_nat i + 1 in
      '(success, message) ← cut_function boundary offset dry_run;
      let results :=
        if success : bool then
          mkResults (success_count results + 1) (fail_count results)
            (messages results ++
               ["  ✓ Boundary " +:+ PyInt.str boundary_num +:+ ": " +:+ message])
            (successful_boundaries results ++ [boundary])
        else
          mkResults (success_count results) (fail_count results + 1)
            (messages results ++
               ["  ✗ Boundary " +:+ PyInt.str boundary_num +:+ ": " +:+ message])
            (successful_boundaries results)
      in
      cuts_loop cut_function offset dry_run (S i) rest results
  end.

Definition apply_cuts_to_timeline (boundaries : list Boundary) (offset : Z)
    (cut_type : string) (dry_run : bool) : M Results :=
  let results := mkResults 0 0 [] [] in
  let cut_function :=
    if String.eqb (upper cut_type) "J" then apply_j_cut else apply_l_cut in
  cuts_loop cut_function offset dry_run 0 boundaries results.

(* ===================================================================== *)
(** ** Notions used to state and prove the properties *)
(* ===================================================================== *)

(** Names that [Element.find] reads as a plain tag.  Its path expressions
    give a meaning to [/ . * : [ ] ( ) @ = !], to quotes, braces and white
    space; a non-empty name made of ASCII letters, digits and underscores
    has none of these and selects the children with exactly that tag. *)
Definition tag_char (c : ascii) : bool :=
  let n := nat_of_ascii c in
  ((65 <=? n)%nat && (n <=? 90)%nat) || ((97 <=? n)%nat && (n <=? 122)%nat)
  || ((48 <=? n)%nat && (n <=? 57)%nat) || (n =? 95)%nat.

Fixpoint tag_chars (s : string) : bool :=
  match s with
  | EmptyString => true
  | String c r => tag_char c && tag_chars r
  end.

Definition plain_tag (n : string) : bool :=
  negb (String.eqb n "") && tag_chars n.

(** Strings of decimal digits. *)
Fixpoint all_digits (s : string) : bool :=
  match s with
  | EmptyString => true
  | String c r => PyInt.is_digit c && all_digits r
  end.

(** The property readers only look at the element a reference points to:
    [prop_of] is [get_clip_property] and [int_of] is [parse_int_property]
    (with default 0) on that element. *)
Definition prop_of (c : Clip) (n : string) : option string :=
  match find n c with
  | None => None
  | Some e => Some (match text e with Some t => t | None => "" end)
  end.

Definition int_of (c : Clip) (n : string) : Z :=
  match prop_of c n with
  | None => 0
  | Some v => if String.eqb v "" then 0
              else match PyInt.int v with Some z => z | None => 0 end
  end.

(** Validation of a J-cut, on the audio element it targets. *)
Definition j_ok (o : Z) (c : Clip) : bool :=
  (0 <? o) && (0 <=? int_of c "Start" - o) && (0 <=? int_of c "In" - o)
  && (o <=? int_of c "Duration").

(** The three writes of a J-cut, on the audio element it targets. *)
Definition j_update (o : Z) (c : Clip) : Clip :=
  set_text "In" (PyInt.str (int_of c "In" - o))
    (set_text "Duration" (PyInt.str (int_of c "Duration" + o))
       (set_text "Start" (PyInt.str (int_of c "Start" - o)) c)).

Definition l_ok (o : Z) (c : Clip) : bool :=
  (0 <? o) && (1 <=? int_of c "Duration").

Definition l_update (o : Z) (c : Clip) : Clip :=
  set_text "Duration" (PyInt.str (int_of c "Duration" + o)) c.

Definition j_target (b : Boundary) : addr := audio_clip (clip_pair_after b).
Definition l_target (b : Boundary) : addr := audio_clip (clip_pair_before b).

(** The two counters of a [results] dictionary, and their update by one
    verdict. *)
Definition counts (r : Results) : Z * Z := (success_count r, fail_count r).

Definition tally (success : bool) (c : Z * Z) : Z * Z :=
  if success then (c.1 + 1, c.2) else (c.1, c.2 + 1).

(** The numbers a pair carries are those of its video element. *)
Definition snapshot_of_video (h : Store) (p : ClipPair) : Prop :=
  start p = parse_int_property h (video_clip p) "Start" 0
  ∧ duration p = parse_int_property h (video_clip p) "Duration" 0
  ∧ in_point p = parse_int_property h (video_clip p) "In" 0.

(** The dictionary [audio_lookup] after the loop over the audio clips. *)
Definition audio_lookup_of (h : Store) (audios : list addr)
    (m : gmap (string * string * Z) addr) : gmap (string * string * Z) addr :=
  foldl (λ lookup audio_clip, <[clip_key h audio_clip := audio_clip]> lookup)
        m audios.

(* ===================================================================== *)
(** ** Timelines used as examples *)
(* ===================================================================== *)

(** A clip element with the five properties the engine reads. *)
Definition mk_clip (nm mref : string) (s d i : Z) : Clip :=
  [mkElement "Name" (Some nm); mkElement "MediaRef" (Some mref);
   mkElement "Start" (Some (PyInt.str s));
   mkElement "Duration" (Some (PyInt.str d));
   mkElement "In" (Some (PyInt.str i))].

(** Clip A on frames 0..100 followed by clip B on frames 100..200; video
    elements at 1 and 3, audio elements at 2 and 4.  [b_start] and [b_in]
    are the start and the in-point of clip B on both tracks. *)
Definition timeline (b_start b_in : Z) : Store :=
  <[1%positive := mk_clip "A" "m1" 0 100 0]>
    (<[2%positive := mk_clip "A" "m1" 0 100 0]>
       (<[3%positive := mk_clip "B" "m2" b_start 100 b_in]>
          (<[4%positive := mk_clip "B" "m2" b_start 100 b_in]> ∅))).

Definition pair_A : ClipPair := mkClipPair 1 2 "A" 0 100 0 "m1".
Definition pair_B (b_start b_in : Z) : ClipPair :=
  mkClipPair 3 4 "B" b_start 100 b_in "m2".
Definition boundary_AB (b_in : Z) : Boundary :=
  mkBoundary pair_A (pair_B 100 b_in) 100.

(** Clip B placed after A, and A placed after B: on [timeline 100 20] a
    J-cut by 8 frames is accepted on the first (twice in a row, its audio
    has 20 frames of source before the in-point) and refused on the
    second. *)
Definition boundary_BA : Boundary := mkBoundary (pair_B 100 20) pair_A 200.

(** Clip A starts before frame 0 on both tracks (a document may say so);
    clip B follows it at frame 95. *)
Definition early_timeline : Store :=
  <[1%positive := mk_clip "A" "m1" (-5) 100 0]>
    (<[2%positive := mk_clip "A" "m1" (-5) 100 0]>
       (<[3%positive := mk_clip "B" "m2" 95 100 0]>
          (<[4%positive := mk_clip "B" "m2" 95 100 0]> ∅))).

Definition early_boundary : Boundary :=
  mkBoundary (mkClipPair 1 2 "A" (-5) 100 0 "m1")
             (mkClipPair 3 4 "B" 95 100 0 "m2") 95.

(** Video clips at 1 and 3 with the key of the audio clip at 2. *)
Definition doubled_timeline : Store :=
  <[1%positive := mk_clip "A" "m1" 0 100 0]>
    (<[2%positive := mk_clip "A" "m1" 0 100 0]>
       (<[3%positive := mk_clip "A" "m1" 0 50 0]> ∅)).

(* ===================================================================== *)
(** ** The cut function and the target a [cut_type] selects *)
(* ===================================================================== *)

(** The [cut_function] of [apply_cuts_to_timeline]. *)
Definition cut_function_of (cut_type : string)
  : Boundary → Z → bool → M (bool * string) :=
  if String.eqb (upper cut_type) "J" then apply_j_cut else apply_l_cut.

(** The audio element that function reads and writes. *)
Definition target_of (cut_type : string) : Boundary → addr :=
  if String.eqb (upper cut_type) "J" then j_target else l_target.

(** The pair [find_clip_pairs] builds from a video clip and the audio clip
    found under its key. *)
Definition pair_of (h : Store) (video_clip audio_clip : addr) : ClipPair :=
  mkClipPair video_clip audio_clip
    (or_empty (get_clip_property h video_clip "Name"))
    (parse_int_property h video_clip "Start" 0)
    (parse_int_property h video_clip "Duration" 0)
    (parse_int_property h video_clip "In" 0)
    (or_empty (get_clip_property h video_clip "MediaRef")).

(** One video clip at 1 and two audio clips with its key, at 2 and at 5. *)
Definition two_audio_timeline : Store :=
  <[1%positive := mk_clip "A" "m1" 0 100 0]>
    (<[2%positive := mk_clip "A" "m1" 0 100 0]>
       (<[5%positive := mk_clip "A" "m1" 0 70 0]> ∅)).

(** The dictionary [get_boundary_info] returns, one field per key. *)
Module Info.
Record t := mk {
  cut_frame : Z;
  before_name : string;
  before_start : Z;
  before_duration : Z;
  before_end : Z;
  after_name : string;
  after_start : Z;
  after_duration : Z;
  after_end : Z
}.
End Info.

Definition get_boundary_info (boundary : Boundary) : Info.t :=
  let before := clip_pair_before boundary in
  let after := clip_pair_after boundary in
  Info.mk (cut_frame boundary)
          (name before) (start before) (duration before)
          (start before + duration before)
          (name after) (start after) (duration after)
          (start after + duration after).

(* ===================================================================== *)
(** ** resolve_parse.py: the tracks of a timeline document *)
(* ===================================================================== *)

(** An element of a parsed document: its tag, its text and its children in
    document order. *)
#[local] Unset Elimination Schemes.
Inductive XElem := XE {
  xtag : string;
  xtext : option string;
  xchildren : list XElem
}.
#[local] Set Elimination Schemes.

(** [element.find(tag)]: the first child with that tag. *)
Definition xfind (t : string) (e : XElem) : option XElem :=
  List.find (λ c, String.eqb (xtag c) t) (xchildren e).

(** [element.findall(tag)]: the children with that tag, in order. *)
Definition xfindall (t : string) (e : XElem) : list XElem :=
  List.filter (λ c, String.eqb (xtag c) t) (xchildren e).

Definition get_video_track (root : XElem) : option XElem :=
  match xfind "VideoTrackVec" root with
  | None => None
  | Some video_track_vec =>
      match xfind "Element" video_track_vec with
      | None => None
      | Some element => xfind "Sm2TiTrack" element
      end
  end.

Definition get_audio_track (root : XElem) : option XElem :=
  match xfind "AudioTrackVec" root with
  | None => None
  | Some audio_track_vec =>
      match xfind "Element" audio_track_vec with
      | None => None
      | Some element => xfind "Sm2TiTrack" element
      end
  end.

Definition get_track_items (track : XElem) : list XElem :=
  match xfind "Items" track with
  | None => []
  | Some items_element =>
      omap (λ element,
              match xfind "Sm2TiVideoClip" element with
              | Some clip => Some clip
              | None => xfind "Sm2TiAudioClip" element
              end)
           (xfindall "Element" items_element)
  end.

(** The dictionary [get_timeline_info] returns, for the document that
    [load_timeline_xml] parsed (the path and the tree handle are left
    out). *)
Record TimelineInfo := mkTimelineInfo {
  video_clip_count : nat;
  audio_clip_count : nat;
  video_clips : list XElem;
  audio_clips : list XElem;
  video_track : option XElem;
  audio_track : option XElem;
  root : XElem
}.

Definition get_timeline_info (root : XElem) : TimelineInfo :=
  let video_track := get_video_track root in
  let audio_track := get_audio_track root in
  let video_clips :=
    match video_track with Some t => get_track_items t | None => [] end in
  let audio_clips :=
    match audio_track with Some t => get_track_items t | None => [] end in
  mkTimelineInfo (length video_clips) (length audio_clips)
                 video_clips audio_clips video_track audio_track root.

(** A track with three [Element] children of [Items]: one holding a video
    clip, one holding an audio clip after a video clip, one holding no
    clip. *)
Definition sample_video : XElem := XE "Sm2TiVideoClip" None [].
Definition sample_audio : XElem := XE "Sm2TiAudioClip" None [].
Definition sample_track : XElem :=
  XE "Sm2TiTrack" None
    [XE "Items" None
       [XE "Element" None [sample_video];
        XE "Element" None [sample_audio; sample_video];
        XE "Element" None [XE "Other" None []]]].

(* ===================================================================== *)
(** ** api.py and drp_io.py: names and archive checks *)
(* ===================================================================== *)

(** [str.lower] on ASCII letters; other bytes are kept (no character
    outside ASCII has a lower-case form that contains [.], [d], [r] or
    [p], so the test below is the one Python makes). *)
Definition lower_char (c : ascii) : ascii :=
  let n := nat_of_ascii c in
  if (65 <=? n)%nat && (n <=? 90)%nat then ascii_of_nat (n + 32) else c.

Fixpoint lower (s : string) : string :=
  match s with
  | EmptyString => EmptyString
  | String c r => String (lower_char c) (lower r)
  end.

(** [s.endswith(suffix)]. *)
Fixpoint endswith (s suffix : string) : bool :=
  String.eqb s suffix
  || match s with
     | EmptyString => false
     | String _ r => endswith r suffix
     end.

(** [sub in s]. *)
Fixpoint contains (sub s : string) : bool :=
  String.prefix sub s
  || match s with
     | EmptyString => false
     | String _ r => contains sub r
     end.

Definition MAX_EXTRACTED_SIZE : Z := 200 * 1024 * 1024.
Definition ALLOWED_EXTENSIONS : list string := [".drp"].

Definition validate_file_extension (filename : string) : bool :=
  existsb (λ ext, endswith (lower filename) ext) ALLOWED_EXTENSIONS.

(** An entry of [zf.infolist()]. *)
Record ZipInfo := mkZipInfo { filename : string; file_size : Z }.

(** The loop over the entries that looks for a path leaving the archive:
    the file name it stops at, if any. *)
Fixpoint first_invalid_path (infolist : list ZipInfo) : option string :=
  match infolist with
  | [] => None
  | info :: rest =>
      if contains ".." (filename info) || String.prefix "/" (filename info)
      then Some (filename info)
      else first_invalid_path rest
  end.

(** [validate_zip_structure] on what [zipfile.ZipFile] made of the bytes:
    the list of entries, or [None] when it raised [BadZipFile] (any other
    exception is refused as well, under another message). *)
Definition validate_zip_structure (archive : option (list ZipInfo))
  : bool * string :=
  match archive with
  | None => (false, "File is not a valid ZIP archive")
  | Some infolist =>
      let total_size := foldr Z.add 0 (file_size <$> infolist) in
      if MAX_EXTRACTED_SIZE <? total_size then
        (false, "Extracted size (" +:+ PyInt.str total_size
                +:+ " bytes) exceeds maximum ("
                +:+ PyInt.str MAX_EXTRACTED_SIZE +:+ " bytes)")
      else
        match first_invalid_path infolist with
        | Some bad => (false, "Invalid file path in archive: " +:+ bad)
        | None =>
            let filenames := filename <$> infolist in
            if bool_decide ("project.xml" ∈ filenames) then (true, "")
            else (false, "Invalid DRP structure: missing project.xml")
        end
  end.

Section output_name.
(** [Path(original_path).stem], the file name without its last extension,
    is the library's. *)
Context (stem : string → string).

Definition get_output_name (original_path cut_type : string) : string :=
  let base_name := stem original_path in
  let suffix :=
    if String.eqb (upper cut_type) "J" then " (J cuts added)"
    else if String.eqb (upper cut_type) "L" then " (L cuts added)"
    else " (modified)" in
  base_name +:+ suffix +:+ ".drp".
End output_name.

(** The name [repack_drp] gives the archive it writes. *)
Definition repack_name (output_name : string) : string :=
  if negb (endswith output_name ".drp") then output_name +:+ ".drp"
  else output_name.

(* ===================================================================== *)
(** ** The transforms under the interpreter's limit on conversions *)
(* ===================================================================== *)

(** Since CPython 3.11, [int(text)] and [str(n)] (and an integer formatted
    in an f-string) raise [ValueError] when more than
    [sys.get_int_max_str_digits()] decimal digits are involved.  The
    setting is 4300 by default; it is 0, meaning no limit, or at least 640.
    The definitions above are the code under an interpreter without limit;
    the ones below are the same code under a limit, where a conversion can
    raise.  [parse_int_property] catches the exception of [int] and returns
    its default; the transforms do not catch the exception of [str], and an
    exception leaves the store as the writes made so far have it. *)
Inductive exception := ValueError.

Inductive outcome (A : Type) :=
| Returned (a : A)
| Raised (e : exception).
Arguments Returned {A} a.
Arguments Raised {A} e.

(** Computations that may mutate clip elements and may raise. *)
Definition MX (A : Type) : Type := Store → outcome A * Store.

#[export] Instance MX_ret : MRet MX := λ A a h, (Returned a, h).
#[export] Instance MX_bind : MBind MX :=
  λ A B k m h,
    match m h with
    | (Returned a, h') => k a h'
    | (Raised e, h') => (Raised e, h')
    end.

Module Limited.
Section limit.
(** [sys.get_int_max_str_digits()]. *)
Context (max_str_digits : nat).

Definition over_limit (n_digits : nat) : bool :=
  (0 <? max_str_digits)%nat && (max_str_digits <? n_digits)%nat.

(** The digit group counts with its leading zeros and without its
    underscores. *)
Definition unsigned (s : string) : option Z :=
  d ← PyInt.digits false s;
  if over_limit (String.length d) then None
  else Z.of_uint <$> NilEmpty.uint_of_string d.

Definition parse_ascii (s : string) : option Z :=
  match PyInt.strip s with
  | String "+"%char r => unsigned r
  | String "-"%char r => Z.opp <$> unsigned r
  | r => unsigned r
  end.

(** [int(s)]; [None] stands for [ValueError]. *)
Definition int (s : string) : option Z := parse_ascii (PyInt.ascii_form s).

(** [str(n)]; [None] stands for [ValueError].  The sign does not count. *)
Definition str (n : Z) : option string :=
  if over_limit (String.length (PyInt.str (Z.abs n))) then None
  else Some (PyInt.str n).

Definition parse_int_property (h : Store) (clip : addr)
    (property_name : string) (default : Z) : Z :=
  match get_clip_property h clip property_name with
  | None => default
  | Some value =>
      if String.eqb value "" then default
      else match int value with
           | Some n => n
           | None => default
           end
  end.

Definition reads {A} (f : Store → A) : MX A := λ h, (Returned (f h), h).

(** [str(n)] as a step of a computation. *)
Definition to_str (n : Z) : MX string :=
  λ h, match str n with
       | Some s => (Returned s, h)
       | None => (Raised ValueError, h)
       end.

Definition set_clip_property (clip : addr) (property_name value : string)
  : MX unit :=
  λ h, (Returned tt, alter (set_text property_name value) clip h).

Definition apply_j_cut (boundary : Boundary) (offset : Z) (dry_run : bool)
  : MX (bool * string) :=
  if offset <=? 0 then mret (false, "Offset must be positive")
  else
    let audio_clip := audio_clip (clip_pair_after boundary) in
    current_start ← reads (λ h, parse_int_property h audio_clip "Start" 0);
    current_duration ← reads (λ h, parse_int_property h audio_clip "Duration" 0);
    current_in ← reads (λ h, parse_int_property h audio_clip "In" 0);
    let new_start := current_start - offset in
    let new_duration := current_duration + offset in
    let new_in := current_in - offset in
    if new_start <? 0 then
      s ← to_str new_start;
      mret (false, "J-cut would push Start below 0 (new Start=" +:+ s +:+ ")")
    else if new_in <? 0 then
      s ← to_str new_in;
      mret (false, "J-cut would push In below 0 (new In=" +:+ s
                   +:+ "). Clip may not have enough source media before the cut point.")
    else if current_duration <? offset then
      so ← to_str offset;
      sd ← to_str current_duration;
      mret (false, "Clip too short for offset " +:+ so
                   +:+ " (duration=" +:+ sd +:+ ")")
    else
      (if negb dry_run then
         s ← to_str new_start;
         set_clip_property audio_clip "Start" s;;
         d ← to_str new_duration;
         set_clip_property audio_clip "Duration" d;;
         i ← to_str new_in;
         set_clip_property audio_clip "In" i
       else mret tt);;
      let clip_name := name (clip_pair_after boundary) in
      s0 ← to_str current_start;
      s1 ← to_str new_start;
      d0 ← to_str current_duration;
      d1 ← to_str new_duration;
      i0 ← to_str current_in;
      i1 ← to_str new_in;
      let message :=
        "J-cut applied to '" +:+ clip_name
        +:+ "': Start " +:+ s0 +:+ "→" +:+ s1
        +:+ ", Duration " +:+ d0 +:+ "→" +:+ d1
        +:+ ", In " +:+ i0 +:+ "→" +:+ i1 in
      mret (true, message).

Definition apply_l_cut (boundary : Boundary) (offset : Z) (dry_run : bool)
  : MX (bool * string) :=
  if offset <=? 0 then mret (false, "Offset must be positive")
  else
    let audio_clip := audio_clip (clip_pair_before boundary) in
    current_duration ← reads (λ h, parse_int_property h audio_clip "Duration" 0);
    current_in ← reads (λ h, parse_int_property h audio_clip "In" 0);
    let new_duration := current_duration + offset in
    if current_duration <? 1 then
      sd ← to_str current_duration;
      mret (false, "Clip too short (duration=" +:+ sd +:+ ")")
    else
      (if negb dry_run then
         d ← to_str new_duration;
         set_clip_property audio_clip "Duration" d
       else mret tt);;
      let clip_name := name (clip_pair_before boundary) in
      d0 ← to_str current_duration;
      d1 ← to_str new_duration;
      let message :=
        "L-cut applied to '" +:+ clip_name
        +:+ "': Duration " +:+ d0 +:+ "→" +:+ d1 in
      mret (true, message).
End limit.
End Limited.

(** A text of [n] nines. *)
Fixpoint nines (n : nat) : string :=
  match n with
  | O => EmptyString
  | S k => String "9" (nines k)
  end.

(** Clip A on frames 0..100, then clip B at frame 100 whose document gives
    it a duration of 4300 nines and an in-point of 100, on both tracks. *)
Definition long_timeline : Store :=
  <[1%positive := mk_clip "A" "m1" 0 100 0]>
    (<[2%positive := mk_clip "A" "m1" 0 100 0]>
       (<[3%positive :=
            [mkElement "Name" (Some "B"); mkElement "MediaRef" (Some "m2");
             mkElement "Start" (Some "100");
             mkElement "Duration" (Some (nines 4300));
             mkElement "In" (Some "100")]]>
          (<[4%positive :=
               [mkElement "Name" (Some "B"); mkElement "MediaRef" (Some "m2");
                mkElement "Start" (Some "100");
                mkElement "Duration" (Some (nines 4300));
                mkElement "In" (Some "100")]]> ∅))).

Definition long_boundary : Boundary :=
  mkBoundary pair_A (mkClipPair 3 4 "B" 100 (10 ^ 4300 - 1) 100 "m2") 100.

(* ===================================================================== *)
(** ** Reading back a printed number *)
(* ===================================================================== *)

Section py_int_facts.
Import PyInt.

Lemma digit_not_space c : is_digit c = true → is_space c = false.
Proof.
  unfold is_digit, is_space. cbv zeta.
  generalize (nat_of_ascii c). intros n H.
  apply andb_prop in H as [H1 H2].
  apply Nat.leb_le in H1. apply Nat.leb_le in H2.
  apply orb_false_intro; [apply andb_false_intro2; apply Nat.leb_gt; lia|].
  apply Nat.eqb_neq. lia.
Qed.

Lemma digit_is_ascii c : is_digit c = true → (nat_of_ascii c <? 128)%nat = true.
Proof.
  unfold is_digit. cbv zeta. generalize (nat_of_ascii c). intros n H.
  apply andb_prop in H as [_ H2]. apply Nat.leb_le in H2.
  apply Nat.ltb_lt. lia.
Qed.

Lemma is_ascii_digits s : all_digits s = true → is_ascii s = true.
Proof.
  induction s as [|c r IH]; simpl; [done|].
  intros [Hc Hr]%andb_prop. by rewrite (digit_is_ascii _ Hc), IH.
Qed.

Lemma all_digits_uint d : all_digits (NilEmpty.string_of_uint d) = true.
Proof. induction d; simpl; auto. Qed.

Lemma lstrip_digits s : all_digits s = true → lstrip s = s.
Proof.
  destruct s as [|c r]; simpl; [done|].
  intros [Hc _]%andb_prop. by rewrite (digit_not_space _ Hc).
Qed.

Lemma rstrip_digits s : all_digits s = true → rstrip s = s.
Proof.
  induction s as [|c r IH]; simpl; [done|].
  intros [Hc Hr]%andb_prop. rewrite (IH Hr), (digit_not_space _ Hc).
  by destruct r.
Qed.

Lemma digits_digits s b :
  all_digits s = true → (s ≠ EmptyString ∨ b = true) → digits b s = Some s.
Proof.
  revert b. induction s as [|c r IH]; simpl; intros b Hs Hb.
  - by destruct Hb as [?| ->].
  - apply andb_prop in Hs as [Hc Hr]. rewrite Hc.
    rewrite (IH true Hr); [done | by right].
Qed.

Lemma unsigned_uint d :
  unsigned (NilZero.string_of_uint d) = Some (Z.of_uint d).
Proof.
  unfold unsigned. destruct d eqn:E; [reflexivity|..]; rewrite <- E;
    (replace (NilZero.string_of_uint d) with (NilEmpty.string_of_uint d)
       by (by rewrite E));
    (rewrite digits_digits;
       [simpl; by rewrite NilEmpty.usu
       | apply all_digits_uint
       | left; by rewrite E]).
Qed.

Lemma strip_uint d :
  strip (NilZero.string_of_uint d) = NilZero.string_of_uint d.
Proof.
  assert (all_digits (NilZero.string_of_uint d) = true) as H.
  { destruct d; try reflexivity; apply (all_digits_uint (_ _)). }
  unfold strip. by rewrite (lstrip_digits _ H), (rstrip_digits _ H).
Qed.

Lemma head_uint d :
  ∃ c r, NilZero.string_of_uint d = String c r ∧ is_digit c = true.
Proof. destruct d; simpl; eauto. Qed.

Lemma parse_head_digit c r :
  is_digit c = true → strip (String c r) = String c r →
  parse_ascii (String c r) = unsigned (String c r).
Proof.
  intros Hc Hs. unfold parse_ascii. rewrite Hs.
  destruct c as [[] [] [] [] [] [] [] []]; try reflexivity;
    vm_compute in Hc; discriminate Hc.
Qed.

Lemma strip_minus s :
  all_digits s = true → s ≠ EmptyString →
  strip (String "-" s) = String "-" s.
Proof.
  intros Hs Hne. unfold strip. simpl. rewrite (rstrip_digits _ Hs).
  by destruct s.
Qed.

Lemma all_digits_uint0 d : all_digits (NilZero.string_of_uint d) = true.
Proof. destruct d; try reflexivity; apply (all_digits_uint (_ _)). Qed.

Lemma is_ascii_str n : is_ascii (str n) = true.
Proof.
  unfold str. destruct (Z.to_int n) as [d|d]; simpl NilZero.string_of_int.
  - apply is_ascii_digits, all_digits_uint0.
  - simpl. apply is_ascii_digits, all_digits_uint0.
Qed.

(** Reading back what [str] printed gives the number. *)
Lemma int_str n : int (str n) = Some n.
Proof.
  unfold int, ascii_form. rewrite is_ascii_str.
  unfold str. rewrite <- (DecimalZ.of_to n) at 2.
  destruct (Z.to_int n) as [d|d]; simpl NilZero.string_of_int.
  - destruct (head_uint d) as (c & r & E & Hc).
    pose proof (strip_uint d) as Hs. rewrite E in Hs.
    rewrite E, (parse_head_digit _ _ Hc Hs), <- E. apply unsigned_uint.
  - unfold parse_ascii. rewrite strip_minus.
    + by rewrite unsigned_uint.
    + apply all_digits_uint0.
    + destruct (head_uint d) as (c & r & E & _). by rewrite E.
Qed.

End py_int_facts.

Example int_padded : PyInt.int "  12 " = Some 12.
Proof. reflexivity. Qed.
Example int_grouped : PyInt.int "-1_000" = Some (-1000).
Proof. reflexivity. Qed.
Example int_rejects :
  PyInt.int "" = None ∧ PyInt.int "12a" = None ∧ PyInt.int "_1" = None
  ∧ PyInt.int "1__0" = None ∧ PyInt.int "+ 1" = None.
Proof. repeat split. Qed.
Example str_negative : PyInt.str (-92) = "-92".
Proof. reflexivity. Qed.
(** Arabic-Indic and fullwidth digits, a no-break space before them. *)
Example int_other_scripts :
  PyInt.int "١٢" = Some 12 ∧ PyInt.int " ５_０" = Some 50
  ∧ PyInt.int "-٣" = Some (-3) ∧ PyInt.int "1é" = None.
Proof. vm_compute. repeat split. Qed.
(** The separators 28 to 31 are not skipped. *)
Example int_separator : PyInt.int (String (ascii_of_nat 28) "5") = None.
Proof. reflexivity. Qed.

(* ===================================================================== *)
(** ** Properties of element access *)
(* ===================================================================== *)

Lemma get_clip_property_at h a n :
  get_clip_property h a n = prop_of (clip_at h a) n.
Proof. reflexivity. Qed.

Lemma parse_int_property_at h a n :
  parse_int_property h a n 0 = int_of (clip_at h a) n.
Proof. reflexivity. Qed.

Lemma str_nonempty z : String.eqb (PyInt.str z) "" = false.
Proof.
  unfold PyInt.str. destruct (Z.to_int z) as [d|d]; simpl; [|done].
  destruct (head_uint d) as (c & r & -> & _). done.
Qed.

Section set_text.
Context (n v : string).

Lemma find_set_text_ne n' c : n ≠ n' → find n' (set_text n v c) = find n' c.
Proof.
  intros Hne. induction c as [|e c IH]; simpl; [done|].
  destruct (String.eqb (tag e) n) eqn:E; simpl.
  - apply String.eqb_eq in E.
    assert (String.eqb (tag e) n' = false) as ->; [|done].
    apply String.eqb_neq. congruence.
  - by rewrite IH.
Qed.

Lemma find_set_text_eq c :
  find n (set_text n v c) = (λ e, mkElement (tag e) (Some v)) <$> find n c.
Proof.
  induction c as [|e c IH]; simpl; [done|].
  destruct (String.eqb (tag e) n) eqn:E; simpl; by rewrite E.
Qed.

Lemma find_set_text_is_Some n' c :
  is_Some (find n' (set_text n v c)) ↔ is_Some (find n' c).
Proof.
  destruct (decide (n = n')) as [<-|Hne].
  - rewrite find_set_text_eq. apply fmap_is_Some.
  - by rewrite find_set_text_ne.
Qed.

Lemma prop_of_set_text_ne n' c :
  n ≠ n' → prop_of (set_text n v c) n' = prop_of c n'.
Proof. intros. unfold prop_of. by rewrite find_set_text_ne. Qed.

Lemma int_of_set_text_ne n' c :
  n ≠ n' → int_of (set_text n v c) n' = int_of c n'.
Proof. intros. unfold int_of. by rewrite prop_of_set_text_ne. Qed.
End set_text.

Lemma int_of_set_text_eq n z c :
  is_Some (find n c) → int_of (set_text n (PyInt.str z) c) n = z.
Proof.
  intros [e He]. unfold int_of, prop_of.
  rewrite find_set_text_eq, He. simpl.
  by rewrite str_nonempty, int_str.
Qed.

(** A property that reads as a non-zero number is present. *)
Lemma int_of_found n c : int_of c n ≠ 0 → is_Some (find n c).
Proof.
  unfold int_of, prop_of. destruct (find n c); [eauto | done].
Qed.

Lemma clip_at_alter_ne (f : Clip → Clip) a b (h : Store) :
  a ≠ b → clip_at (alter f a h) b = clip_at h b.
Proof. intros. unfold clip_at. by rewrite lookup_alter_ne. Qed.

Lemma clip_at_alter_eq (f : Clip → Clip) a (h : Store) :
  f [] = [] → clip_at (alter f a h) a = f (clip_at h a).
Proof.
  intros Hf. unfold clip_at. rewrite lookup_alter_eq.
  by destruct (h !! a).
Qed.

Lemma alter_alter (f g : Clip → Clip) a (h : Store) :
  alter f a (alter g a h) = alter (f ∘ g) a h.
Proof.
  apply map_eq. intros b. destruct (decide (a = b)) as [<-|Hne].
  - rewrite !lookup_alter_eq. by destruct (h !! a).
  - by rewrite !lookup_alter_ne.
Qed.

Lemma alter_swap (f g : Clip → Clip) a b (h : Store) :
  a ≠ b → alter f a (alter g b h) = alter g b (alter f a h).
Proof.
  intros Hne. apply map_eq. intros k.
  rewrite !lookup_alter. repeat case_decide; by simplify_eq.
Qed.

(* ===================================================================== *)
(** ** The cut transforms as local updates of one audio element *)
(* ===================================================================== *)

(** Run the monadic code of a cut on a store and split on its comparisons. *)
Ltac run_cut o :=
  destruct (Z.leb_spec o 0);
  cbv [mbind M_bind mret M_ret reads set_clip_property];
  rewrite ?parse_int_property_at.

Ltac split_tests :=
  repeat match goal with
    | |- context [?x <? ?y] => destruct (Z.ltb_spec x y)
    | |- context [?x <=? ?y] => destruct (Z.leb_spec x y)
    end.

Lemma apply_j_cut_verdict b o dry h :
  (apply_j_cut b o dry h).1.1 = j_ok o (clip_at h (j_target b)).
Proof.
  unfold apply_j_cut, j_ok, j_target. run_cut o;
    split_tests; simpl; try lia; try done. by destruct dry.
Qed.

Lemma apply_j_cut_store b o dry h :
  (apply_j_cut b o dry h).2 =
    if j_ok o (clip_at h (j_target b)) && negb dry
    then alter (j_update o) (j_target b) h else h.
Proof.
  unfold apply_j_cut, j_ok, j_target. run_cut o;
    split_tests; simpl; try lia; try done.
  destruct dry; simpl; [done|].
  rewrite !alter_alter. apply alter_ext. intros x Hx.
  unfold j_update, clip_at. by rewrite Hx.
Qed.

Lemma apply_l_cut_verdict b o dry h :
  (apply_l_cut b o dry h).1.1 = l_ok o (clip_at h (l_target b)).
Proof.
  unfold apply_l_cut, l_ok, l_target. run_cut o;
    split_tests; simpl; try lia; try done. by destruct dry.
Qed.

Lemma apply_l_cut_store b o dry h :
  (apply_l_cut b o dry h).2 =
    if l_ok o (clip_at h (l_target b)) && negb dry
    then alter (l_update o) (l_target b) h else h.
Proof.
  unfold apply_l_cut, l_ok, l_target. run_cut o;
    split_tests; simpl; try lia; try done.
  destruct dry; simpl; [done|].
  apply alter_ext. intros x Hx. unfold l_update, clip_at. by rewrite Hx.
Qed.

Lemma j_ok_spec o c :
  j_ok o c = true ↔
  0 < o ∧ 0 ≤ int_of c "Start" - o ∧ 0 ≤ int_of c "In" - o
  ∧ o ≤ int_of c "Duration".
Proof. unfold j_ok. rewrite !andb_true_iff. lia. Qed.

Lemma l_ok_spec o c : l_ok o c = true ↔ 0 < o ∧ 1 ≤ int_of c "Duration".
Proof. unfold l_ok. rewrite !andb_true_iff. lia. Qed.

(** What an accepted J-cut leaves in the three properties. *)
Lemma j_update_reads o c :
  j_ok o c = true →
  int_of (j_update o c) "Start" = int_of c "Start" - o
  ∧ int_of (j_update o c) "Duration" = int_of c "Duration" + o
  ∧ int_of (j_update o c) "In" = int_of c "In" - o.
Proof.
  intros (Ho & Hs & Hi & Hd)%j_ok_spec. unfold j_update.
  assert (is_Some (find "Start" c)) as Fs by (apply int_of_found; lia).
  assert (is_Some (find "Duration" c)) as Fd by (apply int_of_found; lia).
  assert (is_Some (find "In" c)) as Fi by (apply int_of_found; lia).
  repeat split.
  - rewrite !int_of_set_text_ne by done. by apply int_of_set_text_eq.
  - rewrite int_of_set_text_ne by done. apply int_of_set_text_eq.
    by apply find_set_text_is_Some.
  - apply int_of_set_text_eq. by do 2 apply find_set_text_is_Some.
Qed.

Lemma j_update_other o c n :
  n ≠ "Start" → n ≠ "Duration" → n ≠ "In" →
  prop_of (j_update o c) n = prop_of c n.
Proof. intros. unfold j_update. by rewrite !prop_of_set_text_ne. Qed.

Lemma l_update_reads o c :
  l_ok o c = true →
  int_of (l_update o c) "Duration" = int_of c "Duration" + o.
Proof.
  intros (Ho & Hd)%l_ok_spec. unfold l_update.
  apply int_of_set_text_eq, int_of_found. lia.
Qed.

Lemma l_update_other o c n :
  n ≠ "Duration" → prop_of (l_update o c) n = prop_of c n.
Proof. intros. unfold l_update. by rewrite prop_of_set_text_ne. Qed.

(** The store after an accepted, applied J-cut, read at its target. *)
Lemma apply_j_cut_reads b o h :
  (apply_j_cut b o false h).1.1 = true →
  let a := audio_clip (clip_pair_after b) in
  let h' := (apply_j_cut b o false h).2 in
  parse_int_property h' a "Start" 0 = parse_int_property h a "Start" 0 - o
  ∧ parse_int_property h' a "Duration" 0
    = parse_int_property h a "Duration" 0 + o
  ∧ parse_int_property h' a "In" 0 = parse_int_property h a "In" 0 - o.
Proof.
  rewrite apply_j_cut_verdict. intros Hok. cbv zeta.
  rewrite apply_j_cut_store, Hok. simpl.
  rewrite !parse_int_property_at, clip_at_alter_eq by done.
  by apply j_update_reads.
Qed.

Lemma apply_l_cut_reads b o h :
  (apply_l_cut b o false h).1.1 = true →
  let a := audio_clip (clip_pair_before b) in
  let h' := (apply_l_cut b o false h).2 in
  parse_int_property h' a "Duration" 0
  = parse_int_property h a "Duration" 0 + o.
Proof.
  rewrite apply_l_cut_verdict. intros Hok. cbv zeta.
  rewrite apply_l_cut_store, Hok. simpl.
  rewrite !parse_int_property_at, clip_at_alter_eq by done.
  by apply l_update_reads.
Qed.

(** An applied L-cut leaves every property but the target's [Duration] as
    it was, on every element. *)
Lemma apply_l_cut_frame b o dry h clip n :
  clip ≠ audio_clip (clip_pair_before b) ∨ n ≠ "Duration" →
  get_clip_property (apply_l_cut b o dry h).2 clip n
  = get_clip_property h clip n.
Proof.
  intros Hne. rewrite apply_l_cut_store.
  destruct (l_ok _ _ && negb dry); [|done].
  rewrite !get_clip_property_at.
  destruct (decide (clip = l_target b)) as [->|Hc].
  - rewrite clip_at_alter_eq by done. apply l_update_other.
    by destruct Hne.
  - by rewrite clip_at_alter_ne.
Qed.

(** A cut that reports failure leaves the store as it found it. *)
Lemma apply_j_cut_failure b o dry h :
  (apply_j_cut b o dry h).1.1 = false → (apply_j_cut b o dry h).2 = h.
Proof.
  rewrite apply_j_cut_verdict, apply_j_cut_store. by intros ->.
Qed.

Lemma apply_l_cut_failure b o dry h :
  (apply_l_cut b o dry h).1.1 = false → (apply_l_cut b o dry h).2 = h.
Proof.
  rewrite apply_l_cut_verdict, apply_l_cut_store. by intros ->.
Qed.

(* ===================================================================== *)
(** ** A two-clip timeline *)
(* ===================================================================== *)

Example timeline_pairs :
  find_clip_pairs (timeline 100 0) [3; 1]%positive [2; 4]%positive
  = [pair_A; pair_B 100 0].
Proof. vm_compute. reflexivity. Qed.

Example timeline_boundary :
  find_eligible_boundaries (timeline 100 0) [pair_A; pair_B 100 0] 10
  = [boundary_AB 0].
Proof. vm_compute. reflexivity. Qed.

Example timeline_gap_15 :
  find_eligible_boundaries (timeline 115 0) [pair_A; pair_B 115 0] 10 = [].
Proof. vm_compute. reflexivity. Qed.

Example timeline_j_cut_fails :
  (apply_j_cut (boundary_AB 0) 8 false (timeline 100 0)).1
  = (false, "J-cut would push In below 0 (new In=-8). Clip may not have enough source media before the cut point.").
Proof. vm_compute. reflexivity. Qed.

Example timeline_l_cut :
  (apply_l_cut (boundary_AB 0) 8 false (timeline 100 0)).1.1 = true
  ∧ clip_at (apply_l_cut (boundary_AB 0) 8 false (timeline 100 0)).2 2
    = mk_clip "A" "m1" 0 108 0.
Proof. vm_compute. split; reflexivity. Qed.

Example timeline_j_cut :
  (apply_j_cut (boundary_AB 20) 8 false (timeline 100 20)).1.1 = true
  ∧ clip_at (apply_j_cut (boundary_AB 20) 8 false (timeline 100 20)).2 4
    = mk_clip "B" "m2" 92 108 12.
Proof. vm_compute. split; reflexivity. Qed.

Example early_boundary_found :
  find_eligible_boundaries early_timeline
    (find_clip_pairs early_timeline [1; 3]%positive [2; 4]%positive) 10
  = [early_boundary].
Proof. vm_compute. reflexivity. Qed.

(* ===================================================================== *)
(** ** The cut transforms *)
(* ===================================================================== *)





(** Without a limit on conversions, a cut that returns failure mutates no
    clip element, whatever the boundary, the offset and [dry_run] (the
    result is always a returned pair, the functions are total); a J-cut
    that returns success with [dry_run] false has updated [Start],
    [Duration] and [In] together.  Under a limit the transforms can raise:
    see [Limited.apply_j_cut]. *)
Theorem cut_failure_no_mutation (h : Store) (b : Boundary) (o : Z)
    (dry_run : bool) :
  ((apply_j_cut b o dry_run h).1.1 = false → (apply_j_cut b o dry_run h).2 = h)
  ∧ ((apply_l_cut b o dry_run h).1.1 = false
     → (apply_l_cut b o dry_run h).2 = h)
  ∧ ((apply_j_cut b o false h).1.1 = true →
     let a := audio_clip (clip_pair_after b) in
     let h' := (apply_j_cut b o false h).2 in
     parse_int_property h' a "Start" 0 = parse_int_property h a "Start" 0 - o
     ∧ parse_int_property h' a "Duration" 0
       = parse_int_property h a "Duration" 0 + o
     ∧ parse_int_property h' a "In" 0 = parse_int_property h a "In" 0 - o).
Proof.
  split; [apply apply_j_cut_failure|].
  split; [apply apply_l_cut_failure|].
  apply apply_j_cut_reads.
Qed.

(** An L-cut on a clip that starts before frame 0 succeeds and leaves its
    [Start] negative. *)
Lemma l_cut_keeps_negative_start :
  (apply_l_cut early_boundary 8 false early_timeline).1.1 = true
  ∧ parse_int_property (apply_l_cut early_boundary 8 false early_timeline).2
      (audio_clip (clip_pair_before early_boundary)) "Duration" 0 = 108
  ∧ parse_int_property (apply_l_cut early_boundary 8 false early_timeline).2
      (audio_clip (clip_pair_before early_boundary)) "Start" 0 = -5.
Proof. vm_compute. repeat split; reflexivity. Qed.

(** C5 (amended). After a successful, applied J-cut the [Start], [Duration]
    and [In] of the mutated clip are non-negative.  After a successful,
    applied L-cut the [Duration] of the mutated clip is non-negative and
    its [Start] and [In] are what they were before the cut. *)
Theorem cut_success_nonnegative (h : Store) (b : Boundary) (o : Z) :
  ((apply_j_cut b o false h).1.1 = true →
   let a := audio_clip (clip_pair_after b) in
   let h' := (apply_j_cut b o false h).2 in
   0 ≤ parse_int_property h' a "Start" 0
   ∧ 0 ≤ parse_int_property h' a "Duration" 0
   ∧ 0 ≤ parse_int_property h' a "In" 0)
  ∧ ((apply_l_cut b o false h).1.1 = true →
     let a := audio_clip (clip_pair_before b) in
     let h' := (apply_l_cut b o false h).2 in
     0 ≤ parse_int_property h' a "Duration" 0
     ∧ parse_int_property h' a "Start" 0 = parse_int_property h a "Start" 0
     ∧ parse_int_property h' a "In" 0 = parse_int_property h a "In" 0).
Proof.
  split.
  - intros Hs. cbv zeta.
    destruct (apply_j_cut_reads b o h Hs) as (-> & -> & ->).
    rewrite apply_j_cut_verdict in Hs.
    apply j_ok_spec in Hs. rewrite !parse_int_property_at.
    unfold j_target in Hs. lia.
  - intros Hs. cbv zeta. rewrite (apply_l_cut_reads b o h Hs).
    unfold parse_int_property.
    rewrite !apply_l_cut_frame by (right; discriminate).
    rewrite apply_l_cut_verdict in Hs. apply l_ok_spec in Hs.
    split; [|done].
    change (0 ≤ int_of (clip_at h (l_target b)) "Duration" + o). lia.
Qed.

(** C7. With [dry_run] true no clip element is mutated, and the returned
    verdict (and message) is the one the call with [dry_run] false returns
    on the same boundary, offset and store. *)
Theorem dry_run_spec (h : Store) (b : Boundary) (o : Z) :
  (apply_j_cut b o true h).2 = h
  ∧ (apply_j_cut b o true h).1 = (apply_j_cut b o false h).1
  ∧ (apply_l_cut b o true h).2 = h
  ∧ (apply_l_cut b o true h).1 = (apply_l_cut b o false h).1.
Proof.
  repeat split.
  - rewrite apply_j_cut_store. by rewrite andb_false_r.
  - unfold apply_j_cut; run_cut o; split_tests; done.
  - rewrite apply_l_cut_store. by rewrite andb_false_r.
  - unfold apply_l_cut; run_cut o; split_tests; done.
Qed.

(* ===================================================================== *)
(** ** Boundary detection *)
(* ===================================================================== *)

Lemma is_aligned_spec h p :
  is_aligned h p = true ↔
  parse_int_property h (video_clip p) "Start" 0
    = parse_int_property h (audio_clip p) "Start" 0
  ∧ parse_int_property h (video_clip p) "Duration" 0
    = parse_int_property h (audio_clip p) "Duration" 0
  ∧ parse_int_property h (video_clip p) "In" 0
    = parse_int_property h (audio_clip p) "In" 0.
Proof. unfold is_aligned. cbv zeta. rewrite !andb_true_iff, !Z.eqb_eq. tauto. Qed.

(** One iteration of the loop of [find_eligible_boundaries]. *)
Lemma boundary_at_spec h P G i bd :
  boundary_at h P G i = Some bd ↔
  ∃ p q, P !! i = Some p ∧ P !! S i = Some q
    ∧ is_aligned h p = true ∧ is_aligned h q = true
    ∧ 0 ≤ start q - (start p + duration p) ≤ G
    ∧ bd = mkBoundary p q (start p + duration p).
Proof.
  unfold boundary_at. split.
  - destruct (P !! i) as [p|]; simpl; [|done].
    destruct (P !! S i) as [q|]; simpl; [|done].
    destruct (is_aligned h p) eqn:Ap; simpl; [|done].
    destruct (is_aligned h q) eqn:Aq; simpl; [|done].
    destruct (Z.leb_spec 0 (start q - (start p + duration p))); simpl;
      [|done].
    destruct (Z.leb_spec (start q - (start p + duration p)) G); simpl;
      [|done].
    intros [= <-]. exists p, q. split_and!; done || lia.
  - intros (p & q & -> & -> & Ap & Aq & [H1 H2] & ->). simpl.
    apply Z.leb_le in H1, H2. by rewrite Ap, Aq, H1, H2.
Qed.

(** C3. [find_eligible_boundaries] forms a boundary between consecutive
    pairs [P[i]], [P[i+1]] iff both are aligned and [0 <= gap <= G], with
    [cut_frame = P[i].start + P[i].duration] and
    [gap = P[i+1].start - cut_frame]: the boundaries returned are exactly
    those, so none has a negative gap or a gap above [G]. *)
Theorem find_eligible_boundaries_spec (h : Store) (P : list ClipPair) (G : Z)
    (bd : Boundary) :
  bd ∈ find_eligible_boundaries h P G ↔
  ∃ (i : nat) (p q : ClipPair),
    P !! i = Some p ∧ P !! S i = Some q
    ∧ is_aligned h p = true ∧ is_aligned h q = true
    ∧ 0 ≤ start q - (start p + duration p) ≤ G
    ∧ bd = mkBoundary p q (start p + duration p).
Proof.
  unfold find_eligible_boundaries. rewrite list_elem_of_omap. split.
  - intros (i & _ & Hi). exists i. by apply boundary_at_spec.
  - intros (i & p & q & Hp & Hq & Hrest). exists i. split.
    + apply elem_of_seq. apply lookup_lt_Some in Hq. lia.
    + apply boundary_at_spec. by exists p, q.
Qed.

(* ===================================================================== *)
(** ** Clip-pair matching *)
(* ===================================================================== *)

Lemma insert_by_start_perm p l : insert_by_start p l ≡ₚ p :: l.
Proof.
  induction l as [|q r IH]; simpl; [done|].
  destruct (start p <=? start q); [done|].
  rewrite IH. apply perm_swap.
Qed.

Lemma sort_by_start_perm l : sort_by_start l ≡ₚ l.
Proof.
  induction l as [|p l IH]; simpl; [done|].
  by rewrite insert_by_start_perm, IH.
Qed.

(** The pairs come out in ascending order of [start]. *)
Lemma insert_by_start_sorted p l :
  Sorted (λ x y, start x ≤ start y) l →
  Sorted (λ x y, start x ≤ start y) (insert_by_start p l).
Proof.
  induction 1 as [|q r Hr IH Hq]; simpl.
  - by repeat constructor.
  - destruct (Z.leb_spec (start p) (start q)).
    + by repeat constructor.
    + constructor; [done|].
      destruct Hq as [|q' r' Hqq']; simpl.
      * constructor. lia.
      * destruct (start p <=? start q'); constructor; lia.
Qed.

Lemma sort_by_start_sorted l :
  Sorted (λ x y, start x ≤ start y) (sort_by_start l).
Proof.
  induction l as [|p l IH]; simpl; [constructor|].
  by apply insert_by_start_sorted.
Qed.

(** The sort is stable: the pairs with a given [start] keep their order. *)
Lemma insert_by_start_stable k p l :
  filter (λ q, start q = k) (insert_by_start p l)
  = filter (λ q, start q = k) (p :: l).
Proof.
  induction l as [|q r IH]; simpl; [done|].
  destruct (Z.leb_spec (start p) (start q)); [done|].
  rewrite !filter_cons in *. rewrite IH.
  repeat case_decide; done || lia.
Qed.

Lemma sort_by_start_stable k l :
  filter (λ q, start q = k) (sort_by_start l) = filter (λ q, start q = k) l.
Proof.
  induction l as [|p l IH]; simpl; [done|].
  by rewrite insert_by_start_stable, !filter_cons, IH.
Qed.

Lemma find_clip_pairs_snapshot h vs auds p :
  p ∈ find_clip_pairs h vs auds → snapshot_of_video h p.
Proof.
  unfold find_clip_pairs. cbv zeta. rewrite sort_by_start_perm.
  rewrite list_elem_of_omap. intros (v & _ & Hv).
  destruct (_ !! _); [|done]. injection Hv as <-. by repeat split.
Qed.

Lemma find_eligible_boundaries_snapshot h vs auds G b :
  b ∈ find_eligible_boundaries h (find_clip_pairs h vs auds) G →
  snapshot_of_video h (clip_pair_before b)
  ∧ snapshot_of_video h (clip_pair_after b).
Proof.
  unfold find_eligible_boundaries. rewrite list_elem_of_omap.
  intros (i & _ & (p & q & Hp & Hq & _ & _ & _ & ->)%boundary_at_spec).
  simpl. split; eapply find_clip_pairs_snapshot, list_elem_of_lookup_2; eauto.
Qed.

(* ===================================================================== *)
(** ** The offset pre-check against the transform's validation *)
(* ===================================================================== *)




(* ===================================================================== *)
(** ** Batch application *)
(* ===================================================================== *)

Lemma upper_is_J ct : upper ct = "J" ↔ ct = "J" ∨ ct = "j".
Proof.
  split.
  - destruct ct as [|c [|c' r]]; simpl; [done| |done].
    destruct c as [[] [] [] [] [] [] [] []]; vm_compute; intros [=]; auto.
  - by intros [-> | ->].
Qed.

(** C9. A [cut_type] whose upper-case form is not ["J"] (["X"], the empty
    string, ...) selects [apply_l_cut]: the batch is the L-cut batch, the
    same as for ["L"]; no cut kind is rejected or reported. *)
Theorem other_cut_type_applies_l_cut (boundaries : list Boundary) (o : Z)
    (cut_type : string) (dry_run : bool) (h : Store) :
  upper cut_type ≠ "J" →
  apply_cuts_to_timeline boundaries o cut_type dry_run h
  = cuts_loop apply_l_cut o dry_run 0 boundaries (mkResults 0 0 [] []) h
  ∧ apply_cuts_to_timeline boundaries o cut_type dry_run h
    = apply_cuts_to_timeline boundaries o "L" dry_run h.
Proof.
  intros Hne%String.eqb_neq. unfold apply_cuts_to_timeline.
  by rewrite Hne.
Qed.

Lemma other_cut_type_applies_l_cut_witness :
  upper "X" ≠ "J" ∧ upper "" ≠ "J"
  ∧ (apply_cuts_to_timeline [boundary_AB 0] 8 "X" false (timeline 100 0)).1
    = mkResults 1 0
        ["  ✓ Boundary 1: L-cut applied to 'A': Duration 100→108"]
        [boundary_AB 0]
  ∧ apply_cuts_to_timeline [boundary_AB 0] 8 "" false (timeline 100 0)
    = apply_cuts_to_timeline [boundary_AB 0] 8 "L" false (timeline 100 0).
Proof.
  assert (upper "X" ≠ "J") as HX by discriminate.
  assert (upper "" ≠ "J") as HE by discriminate.
  split; [exact HX|]. split; [exact HE|]. split.
  - destruct (other_cut_type_applies_l_cut
                [boundary_AB 0] 8 "X" false (timeline 100 0) HX) as [-> _].
    vm_compute. reflexivity.
  - apply (other_cut_type_applies_l_cut
             [boundary_AB 0] 8 "" false (timeline 100 0) HE).
Defined.

Section batch_order.
(** A cut function whose verdict and whose effect depend on the store only
    through one element, the target of the boundary. *)
Context (cut : Boundary → Z → bool → M (bool * string)).
Context (target : Boundary → addr).
Context (ok : Z → Clip → bool) (upd : Z → Clip → Clip).
Hypothesis cut_verdict : ∀ b o dry h,
  (cut b o dry h).1.1 = ok o (clip_at h (target b)).
Hypothesis cut_store : ∀ b o dry h,
  (cut b o dry h).2 =
    if ok o (clip_at h (target b)) && negb dry
    then alter (upd o) (target b) h else h.

Lemma cuts_loop_step o dry i b l r h :
  ∃ r1,
    cuts_loop cut o dry i (b :: l) r h
    = cuts_loop cut o dry (S i) l r1 (cut b o dry h).2
    ∧ counts r1 = tally (cut b o dry h).1.1 (counts r).
Proof.
  simpl. unfold mbind, M_bind.
  destruct (cut b o dry h) as [[v m] h1]. simpl.
  destruct v; eexists; split; reflexivity.
Qed.

(** The counters and the final store do not depend on the index the loop
    starts from, nor on the messages collected so far. *)
Lemma cuts_loop_counts_ext o dry l :
  ∀ i j r r' h, counts r = counts r' →
    counts (cuts_loop cut o dry i l r h).1
    = counts (cuts_loop cut o dry j l r' h).1
    ∧ (cuts_loop cut o dry i l r h).2 = (cuts_loop cut o dry j l r' h).2.
Proof.
  induction l as [|b l IH]; intros i j r r' h Hr; [done|].
  destruct (cuts_loop_step o dry i b l r h) as (r1 & -> & H1).
  destruct (cuts_loop_step o dry j b l r' h) as (r2 & -> & H2).
  apply IH. by rewrite H1, H2, Hr.
Qed.

(** A cut leaves the elements other than its target as they were. *)
Lemma cut_clip_frame x o dry h a :
  target x ≠ a → clip_at (cut x o dry h).2 a = clip_at h a.
Proof.
  intros Hne. rewrite cut_store.
  destruct (_ && _); [|done]. by rewrite clip_at_alter_ne.
Qed.

(** Two cuts in a row, in either order: the same final store, and the same
    two verdicts (in the same order when both cuts have the same target,
    exchanged otherwise). *)
Lemma cut_swap x y o dry h c :
  (cut x o dry (cut y o dry h).2).2 = (cut y o dry (cut x o dry h).2).2
  ∧ tally (cut x o dry (cut y o dry h).2).1.1 (tally (cut y o dry h).1.1 c)
    = tally (cut y o dry (cut x o dry h).2).1.1 (tally (cut x o dry h).1.1 c).
Proof.
  destruct (decide (target x = target y)) as [Heq|Hne].
  - assert (∀ k, (cut x o dry k).2 = (cut y o dry k).2) as Hst
      by (intros k; by rewrite !cut_store, Heq).
    assert (∀ k, (cut x o dry k).1.1 = (cut y o dry k).1.1) as Hv
      by (intros k; by rewrite !cut_verdict, Heq).
    by rewrite !Hst, !Hv.
  - split.
    + rewrite (cut_store x o dry (cut y o dry h).2).
      rewrite (cut_store y o dry (cut x o dry h).2).
      rewrite !cut_clip_frame by done. rewrite !cut_store.
      destruct (ok o (clip_at h (target x))), (ok o (clip_at h (target y))),
        dry; simpl; try done.
      by apply alter_swap.
    + rewrite !cut_verdict, !cut_clip_frame by done.
      destruct (ok o (clip_at h (target x))), (ok o (clip_at h (target y))),
        c as [s f]; simpl; done.
Qed.

Lemma cuts_loop_perm o dry l l' :
  l ≡ₚ l' →
  ∀ i j r r' h, counts r = counts r' →
    counts (cuts_loop cut o dry i l r h).1
    = counts (cuts_loop cut o dry j l' r' h).1
    ∧ (cuts_loop cut o dry i l r h).2 = (cuts_loop cut o dry j l' r' h).2.
Proof.
  induction 1 as [|x l l' _ IH|x y l|l l' l'' _ IH1 _ IH2];
    intros i j r r' h Hr.
  - done.
  - destruct (cuts_loop_step o dry i x l r h) as (r1 & -> & H1).
    destruct (cuts_loop_step o dry j x l' r' h) as (r2 & -> & H2).
    apply IH. by rewrite H1, H2, Hr.
  - destruct (cuts_loop_step o dry i y (x :: l) r h) as (r1 & -> & H1).
    destruct (cuts_loop_step o dry (S i) x l r1 (cut y o dry h).2)
      as (r2 & -> & H2).
    destruct (cuts_loop_step o dry j x (y :: l) r' h) as (r1' & -> & H1').
    destruct (cuts_loop_step o dry (S j) y l r1' (cut x o dry h).2)
      as (r2' & -> & H2').
    destruct (cut_swap x y o dry h (counts r)) as [-> Ht].
    apply cuts_loop_counts_ext.
    by rewrite H2, H1, H2', H1', <- Hr, Ht.
  - destruct (IH1 i i r r h eq_refl) as [-> ->]. by apply IH2.
Qed.
End batch_order.

(** C8. On any permutation of the list of boundaries,
    [apply_cuts_to_timeline] returns the same [success_count] and the same
    [fail_count]. *)
Theorem apply_cuts_order_independent (boundaries boundaries' : list Boundary)
    (o : Z) (cut_type : string) (dry_run : bool) (h : Store) :
  boundaries ≡ₚ boundaries' →
  success_count (apply_cuts_to_timeline boundaries o cut_type dry_run h).1
  = success_count (apply_cuts_to_timeline boundaries' o cut_type dry_run h).1
  ∧ fail_count (apply_cuts_to_timeline boundaries o cut_type dry_run h).1
    = fail_count (apply_cuts_to_timeline boundaries' o cut_type dry_run h).1.
Proof.
  intros Hp. unfold apply_cuts_to_timeline.
  set (r0 := mkResults 0 0 [] []).
  assert (counts (cuts_loop
                    (if String.eqb (upper cut_type) "J"
                     then apply_j_cut else apply_l_cut)
                    o dry_run 0 boundaries r0 h).1
          = counts (cuts_loop
                      (if String.eqb (upper cut_type) "J"
                       then apply_j_cut else apply_l_cut)
                      o dry_run 0 boundaries' r0 h).1) as Hc.
  { destruct (String.eqb (upper cut_type) "J").
    - eapply (cuts_loop_perm apply_j_cut j_target j_ok j_update); eauto.
      + apply apply_j_cut_verdict.
      + apply apply_j_cut_store.
    - eapply (cuts_loop_perm apply_l_cut l_target l_ok l_update); eauto.
      + apply apply_l_cut_verdict.
      + apply apply_l_cut_store. }
  by injection Hc.
Qed.

Lemma apply_cuts_order_independent_witness :
  [boundary_AB 20; boundary_BA; boundary_AB 20]
    ≡ₚ [boundary_BA; boundary_AB 20; boundary_AB 20]
  ∧ success_count
      (apply_cuts_to_timeline [boundary_BA; boundary_AB 20; boundary_AB 20]
         8 "J" false (timeline 100 20)).1 = 2
  ∧ fail_count
      (apply_cuts_to_timeline [boundary_BA; boundary_AB 20; boundary_AB 20]
         8 "J" false (timeline 100 20)).1 = 1.
Proof.
  assert ([boundary_AB 20; boundary_BA; boundary_AB 20]
            ≡ₚ [boundary_BA; boundary_AB 20; boundary_AB 20]) as Hp
    by apply perm_swap.
  split; [exact Hp|].
  destruct (apply_cuts_order_independent _ _ 8 "J" false (timeline 100 20) Hp)
    as [<- <-].
  vm_compute. split; reflexivity.
Defined.

(* ===================================================================== *)
(** ** Video clips with the same key share their audio element *)
(* ===================================================================== *)

Lemma audio_lookup_is_Some h audios k :
  ∀ m, is_Some (m !! k) ∨ (∃ a, a ∈ audios ∧ clip_key h a = k) →
       is_Some (audio_lookup_of h audios m !! k).
Proof.
  induction audios as [|a0 audios IH]; intros m Hk; simpl.
  - destruct Hk as [?|(a & Ha & _)]; [done|]. by apply elem_of_nil in Ha.
  - apply IH. destruct Hk as [Hm|(a & Ha & Hkey)].
    + left. rewrite lookup_insert. case_decide; eauto.
    + apply elem_of_cons in Ha as [->|Ha].
      * left. rewrite Hkey. rewrite lookup_insert_eq. eauto.
      * right. eauto.
Qed.

(** A video clip whose key is in the dictionary gives a pair with the
    audio element stored under that key. *)
Lemma find_clip_pairs_video h videos audios v a :
  v ∈ videos →
  audio_lookup_of h audios ∅ !! clip_key h v = Some a →
  ∃ p, p ∈ find_clip_pairs h videos audios
       ∧ video_clip p = v ∧ audio_clip p = a.
Proof.
  intros Hv Ha. unfold find_clip_pairs. cbv zeta.
  fold (audio_lookup_of h audios ∅).
  eexists (mkClipPair v a _ _ _ _ _). split; [|done].
  rewrite sort_by_start_perm. apply list_elem_of_omap.
  exists v. split; [done|].
  change (_ !! (_, _, _)) with (audio_lookup_of h audios ∅ !! clip_key h v).
  by rewrite Ha.
Qed.

(** C10. Two distinct video clips with the same [(Name, MediaRef, Start)]
    key, a key some audio clip has too, give two distinct pairs with the
    same audio element: an applied J-cut (or L-cut) through one pair is read
    through the other. *)
Theorem same_key_pairs_share_audio (h : Store) (videos audios : list addr)
    (v1 v2 a : addr) :
  v1 ∈ videos → v2 ∈ videos → v1 ≠ v2 → a ∈ audios →
  clip_key h v1 = clip_key h a → clip_key h v2 = clip_key h a →
  ∃ p1 p2 : ClipPair,
    p1 ∈ find_clip_pairs h videos audios
    ∧ p2 ∈ find_clip_pairs h videos audios
    ∧ p1 ≠ p2 ∧ video_clip p1 = v1 ∧ video_clip p2 = v2
    ∧ audio_clip p1 = audio_clip p2
    ∧ (∀ b o, clip_pair_after b = p1 →
         (apply_j_cut b o false h).1.1 = true →
         parse_int_property (apply_j_cut b o false h).2 (audio_clip p2)
           "Start" 0
         = parse_int_property h (audio_clip p2) "Start" 0 - o)
    ∧ (∀ b o, clip_pair_before b = p1 →
         (apply_l_cut b o false h).1.1 = true →
         parse_int_property (apply_l_cut b o false h).2 (audio_clip p2)
           "Duration" 0
         = parse_int_property h (audio_clip p2) "Duration" 0 + o).
Proof.
  intros Hv1 Hv2 Hne Ha K1 K2.
  destruct (audio_lookup_is_Some h audios (clip_key h a) ∅) as [a' Ha'];
    [right; eauto|].
  destruct (find_clip_pairs_video h videos audios v1 a' Hv1) as (p1 & I1 & V1 & A1);
    [by rewrite K1|].
  destruct (find_clip_pairs_video h videos audios v2 a' Hv2) as (p2 & I2 & V2 & A2);
    [by rewrite K2|].
  exists p1, p2. split_and!; try done.
  - intros ->. congruence.
  - congruence.
  - intros b o <- Hs. rewrite A2, <- A1.
    by destruct (apply_j_cut_reads b o h Hs) as (-> & _).
  - intros b o <- Hs. rewrite A2, <- A1.
    by rewrite (apply_l_cut_reads b o h Hs).
Qed.

Example doubled_timeline_pairs :
  find_clip_pairs doubled_timeline [1; 3]%positive [2%positive]
  = [mkClipPair 1 2 "A" 0 100 0 "m1"; mkClipPair 3 2 "A" 0 50 0 "m1"].
Proof. vm_compute. reflexivity. Qed.

Lemma same_key_pairs_share_audio_witness :
  ∃ p1 p2 : ClipPair,
    p1 ∈ find_clip_pairs doubled_timeline [1; 3]%positive [2%positive]
    ∧ p2 ∈ find_clip_pairs doubled_timeline [1; 3]%positive [2%positive]
    ∧ video_clip p1 = 1%positive ∧ video_clip p2 = 3%positive
    ∧ audio_clip p1 = audio_clip p2.
Proof.
  destruct (same_key_pairs_share_audio doubled_timeline
              [1; 3]%positive [2%positive] 1 3 2)
    as (p1 & p2 & I1 & I2 & _ & V1 & V2 & A & _).
  - apply list_elem_of_here.
  - apply list_elem_of_further, list_elem_of_here.
  - discriminate.
  - apply list_elem_of_here.
  - vm_compute. reflexivity.
  - vm_compute. reflexivity.
  - exists p1, p2. split_and!; assumption.
Defined.

(* ===================================================================== *)
(** ** Writing and reading a property *)
(* ===================================================================== *)

Lemma clip_at_set_text clip n v (h : Store) :
  clip_at (set_clip_property clip n v h).2 clip = set_text n v (clip_at h clip).
Proof. unfold set_clip_property. simpl. by apply clip_at_alter_eq. Qed.

Lemma prop_of_set_text_eq n v c :
  prop_of (set_text n v c) n = (λ _, v) <$> prop_of c n.
Proof.
  unfold prop_of. rewrite find_set_text_eq. by destruct (find n c).
Qed.

Lemma set_text_absent n v c : find n c = None → set_text n v c = c.
Proof.
  induction c as [|e c IH]; simpl; [done|].
  destruct (String.eqb (tag e) n); [done|]. intros H. by rewrite IH.
Qed.

Lemma get_set_clip_property_same h clip n v :
  get_clip_property (set_clip_property clip n v h).2 clip n
  = (λ _, v) <$> get_clip_property h clip n.
Proof.
  rewrite !get_clip_property_at, clip_at_set_text.
  apply prop_of_set_text_eq.
Qed.

Lemma get_set_clip_property_other h clip clip' n n' v :
  clip' ≠ clip ∨ n' ≠ n →
  get_clip_property (set_clip_property clip n v h).2 clip' n'
  = get_clip_property h clip' n'.
Proof.
  intros Hne. rewrite !get_clip_property_at.
  destruct (decide (clip' = clip)) as [->|Hc].
  - rewrite clip_at_set_text. apply prop_of_set_text_ne.
    destruct Hne; congruence.
  - unfold set_clip_property. simpl. by rewrite clip_at_alter_ne.
Qed.

(** X1. [get_clip_property] after [set_clip_property], for property
    names that are plain tags: the property written reads as the value
    written when the clip has it and stays absent otherwise (no child
    element is created, the store is then unchanged); every other property
    of every clip reads as before. *)
Theorem get_after_set_clip_property (h : Store) (clip clip' : addr)
    (n n' v : string) :
  plain_tag n = true → plain_tag n' = true →
  get_clip_property (set_clip_property clip n v h).2 clip' n'
  = (if decide (clip' = clip ∧ n' = n)
     then (λ _, v) <$> get_clip_property h clip n
     else get_clip_property h clip' n')
  ∧ (get_clip_property h clip n = None →
     (set_clip_property clip n v h).2 = h).
Proof.
  intros _ _. split.
  - case_decide as Hd.
    + destruct Hd as [-> ->]. apply get_set_clip_property_same.
    + apply get_set_clip_property_other.
      destruct (decide (clip' = clip)); [right|left]; naive_solver.
  - rewrite get_clip_property_at. unfold prop_of, set_clip_property. simpl.
    destruct (find n (clip_at h clip)) eqn:E; [done|]. intros _.
    apply alter_id. intros c Hc. apply set_text_absent.
    unfold clip_at in E. by rewrite Hc in E.
Qed.

Lemma get_after_set_clip_property_witness :
  plain_tag "Duration" = true ∧ plain_tag "Start" = true
  ∧ get_clip_property
      (set_clip_property 2 "Duration" "108" (timeline 100 0)).2 2 "Duration"
    = Some "108"
  ∧ get_clip_property
      (set_clip_property 2 "Duration" "108" (timeline 100 0)).2 2 "Start"
    = Some "0".
Proof.
  assert (plain_tag "Duration" = true) as Hd by reflexivity.
  assert (plain_tag "Start" = true) as Hs by reflexivity.
  split; [exact Hd|]. split; [exact Hs|]. split.
  - destruct (get_after_set_clip_property (timeline 100 0) 2 2
                "Duration" "Duration" "108" Hd Hd) as [-> _].
    vm_compute. reflexivity.
  - destruct (get_after_set_clip_property (timeline 100 0) 2 2
                "Duration" "Start" "108" Hd Hs) as [-> _].
    vm_compute. reflexivity.
Defined.

(** X2. For a property name that is a plain tag, [parse_int_property]
    reads back the number whose [str] was written, whatever the default;
    on a clip without the property it still returns the default. *)
Theorem parse_after_set_clip_property (h : Store) (clip : addr) (n : string)
    (z d : Z) :
  plain_tag n = true →
  parse_int_property (set_clip_property clip n (PyInt.str z) h).2 clip n d
  = match get_clip_property h clip n with Some _ => z | None => d end.
Proof.
  intros _. unfold parse_int_property. rewrite get_set_clip_property_same.
  destruct (get_clip_property h clip n); simpl; [|done].
  by rewrite str_nonempty, int_str.
Qed.

Lemma parse_after_set_clip_property_witness :
  plain_tag "In" = true
  ∧ parse_int_property
      (set_clip_property 4 "In" (PyInt.str 12) (timeline 100 20)).2 4 "In" 7
    = 12.
Proof.
  assert (plain_tag "In" = true) as Hn by reflexivity.
  split; [exact Hn|].
  rewrite (parse_after_set_clip_property (timeline 100 20) 4 "In" 12 7 Hn).
  vm_compute. reflexivity.
Defined.

(* ===================================================================== *)
(** ** More on clip-pair matching *)
(* ===================================================================== *)

Lemma audio_lookup_of_app h l1 l2 m :
  audio_lookup_of h (l1 ++ l2) m = audio_lookup_of h l2 (audio_lookup_of h l1 m).
Proof. unfold audio_lookup_of. apply foldl_app. Qed.

(** What is stored under a key is an audio clip with that key (or was
    there before the loop). *)
Lemma audio_lookup_sound h audios :
  ∀ m k a, audio_lookup_of h audios m !! k = Some a →
           m !! k = Some a ∨ (a ∈ audios ∧ clip_key h a = k).
Proof.
  induction audios as [|a0 audios IH]; intros m k a Hk; simpl in Hk.
  - by left.
  - apply IH in Hk as [Hk|[Ha Hkey]].
    + rewrite lookup_insert in Hk. case_decide as Hd.
      * injection Hk as <-. right. split; [apply list_elem_of_here | done].
      * by left.
    + right. split; [by apply list_elem_of_further | done].
Qed.

(** Audio clips with other keys leave the entry of a key alone. *)
Lemma audio_lookup_other h audios k :
  ∀ m, (∀ a, a ∈ audios → clip_key h a ≠ k) →
       audio_lookup_of h audios m !! k = m !! k.
Proof.
  induction audios as [|a0 audios IH]; intros m Hk; simpl; [done|].
  rewrite IH.
  - apply lookup_insert_ne, Hk, list_elem_of_here.
  - intros a Ha. by apply Hk, list_elem_of_further.
Qed.

(** The last audio clip with a key is the one the dictionary keeps. *)
Lemma audio_lookup_last h l1 a l2 m :
  (∀ a', a' ∈ l2 → clip_key h a' ≠ clip_key h a) →
  audio_lookup_of h (l1 ++ a :: l2) m !! clip_key h a = Some a.
Proof.
  intros Hl2. rewrite audio_lookup_of_app. simpl.
  rewrite audio_lookup_other by done. apply lookup_insert_eq.
Qed.

Lemma elem_of_find_clip_pairs h videos audios p :
  p ∈ find_clip_pairs h videos audios ↔
  ∃ v a, v ∈ videos
         ∧ audio_lookup_of h audios ∅ !! clip_key h v = Some a
         ∧ p = pair_of h v a.
Proof.
  unfold find_clip_pairs. cbv zeta. fold (audio_lookup_of h audios ∅).
  rewrite sort_by_start_perm, list_elem_of_omap. split.
  - intros (v & Hv & Hp). exists v.
    change (_ !! (_, _, _)) with (audio_lookup_of h audios ∅ !! clip_key h v)
      in Hp.
    destruct (audio_lookup_of h audios ∅ !! clip_key h v) as [a|]; [|done].
    exists a. by injection Hp as <-.
  - intros (v & a & Hv & Ha & ->). exists v. split; [done|].
    change (_ !! (_, _, _)) with (audio_lookup_of h audios ∅ !! clip_key h v).
    by rewrite Ha.
Qed.

(** X3. Every pair [find_clip_pairs] returns joins a clip of the video
    list with a clip of the audio list that has the same
    [(Name, MediaRef, Start)] key, and carries the name, media reference,
    start, duration and in-point read from the video clip. *)
Theorem find_clip_pairs_sound (h : Store) (videos audios : list addr)
    (p : ClipPair) :
  p ∈ find_clip_pairs h videos audios →
  video_clip p ∈ videos ∧ audio_clip p ∈ audios
  ∧ clip_key h (audio_clip p) = clip_key h (video_clip p)
  ∧ (name p, media_ref p, start p) = clip_key h (video_clip p)
  ∧ duration p = parse_int_property h (video_clip p) "Duration" 0
  ∧ in_point p = parse_int_property h (video_clip p) "In" 0.
Proof.
  intros (v & a & Hv & Ha & ->)%elem_of_find_clip_pairs. simpl.
  apply audio_lookup_sound in Ha as [Ha|[Ha Hk]]; [by rewrite lookup_empty in Ha|].
  by split_and!.
Qed.

Lemma find_clip_pairs_sound_witness :
  pair_B 100 0 ∈ find_clip_pairs (timeline 100 0) [3; 1]%positive [2; 4]%positive
  ∧ clip_key (timeline 100 0) 4 = clip_key (timeline 100 0) 3.
Proof.
  assert (pair_B 100 0
            ∈ find_clip_pairs (timeline 100 0) [3; 1]%positive [2; 4]%positive)
    as Hin.
  { rewrite timeline_pairs. apply list_elem_of_further, list_elem_of_here. }
  split; [exact Hin|].
  by destruct (find_clip_pairs_sound _ _ _ _ Hin) as (_ & _ & Hk & _).
Defined.

(** X4. A video clip is paired iff some audio clip has its key: video
    clips without a matching audio clip are dropped, and so is everything
    when either list is empty. *)
Theorem find_clip_pairs_complete (h : Store) (videos audios : list addr)
    (v : addr) :
  (∃ p, p ∈ find_clip_pairs h videos audios ∧ video_clip p = v) ↔
  v ∈ videos ∧ ∃ a, a ∈ audios ∧ clip_key h a = clip_key h v.
Proof.
  split.
  - intros (p & (v' & a & Hv & Ha & ->)%elem_of_find_clip_pairs & <-). simpl.
    split; [done|].
    apply audio_lookup_sound in Ha as [Ha|[Ha Hk]];
      [by rewrite lookup_empty in Ha | eauto].
  - intros (Hv & a & Ha & Hk).
    destruct (audio_lookup_is_Some h audios (clip_key h v) ∅) as [a' Ha'];
      [right; eauto|].
    exists (pair_of h v a'). split; [|done].
    apply elem_of_find_clip_pairs. eauto.
Qed.

(** X5. When several audio clips share a key, the pairs with that key take
    the last of them in the audio list. *)
Theorem find_clip_pairs_last_audio (h : Store) (videos l1 l2 : list addr)
    (a : addr) (p : ClipPair) :
  (∀ a', a' ∈ l2 → clip_key h a' ≠ clip_key h a) →
  p ∈ find_clip_pairs h videos (l1 ++ a :: l2) →
  clip_key h (video_clip p) = clip_key h a →
  audio_clip p = a.
Proof.
  intros Hl2 (v & a' & Hv & Ha & ->)%elem_of_find_clip_pairs Hk.
  simpl in *. rewrite Hk, audio_lookup_last in Ha by done. congruence.
Qed.

Lemma find_clip_pairs_last_audio_witness :
  Forall (λ p, audio_clip p = 5%positive)
    (find_clip_pairs two_audio_timeline [1%positive] [2; 5]%positive).
Proof.
  apply Forall_forall. intros p Hp.
  apply (find_clip_pairs_last_audio two_audio_timeline [1%positive]
           [2%positive] [] 5%positive p).
  - intros a' Ha'. by apply elem_of_nil in Ha'.
  - exact Hp.
  - vm_compute in Hp. apply list_elem_of_singleton in Hp. by subst p.
Defined.

Lemma filter_omap_pairs h audios k (videos : list addr) :
  video_clip <$>
    filter (λ p, start p = k)
      (omap (λ v, pair_of h v <$> (audio_lookup_of h audios ∅ !! clip_key h v))
            videos)
  = filter (λ v, parse_int_property h v "Start" 0 = k
                 ∧ clip_key h v ∈ clip_key h <$> audios) videos.
Proof.
  induction videos as [|v videos IH]; [done|]. simpl.
  rewrite (filter_cons _ v).
  destruct (audio_lookup_of h audios ∅ !! clip_key h v) as [a|] eqn:E; simpl.
  - apply audio_lookup_sound in E as [E|[Ha Hk]];
      [by rewrite lookup_empty in E|].
    assert (clip_key h v ∈ clip_key h <$> audios) as Hin
      by (rewrite <- Hk; by apply list_elem_of_fmap_2).
    rewrite filter_cons. simpl.
    destruct (decide (parse_int_property h v "Start" 0 = k)) as [Hs|Hs].
    + rewrite decide_True by done. simpl. f_equal. exact IH.
    + rewrite decide_False by (intros [? _]; done). exact IH.
  - rewrite decide_False; [exact IH|]. intros [_ Hin].
    apply list_elem_of_fmap in Hin as (a & Hk & Ha).
    destruct (audio_lookup_is_Some h audios (clip_key h v) ∅) as [a' Ha'];
      [right; eauto | congruence].
Qed.

Lemma omap_length_le {A B} (f : A → option B) (l : list A) :
  (length (omap f l) ≤ length l)%nat.
Proof.
  induction l as [|x l IH]; [done|]. cbn.
  destruct (f x); cbn; fold (omap f l); lia.
Qed.

(** X6. The pairs come out in ascending order of start, at most one per
    video clip, and pairs with equal start keep the order of their video
    clips in the input (the sort is stable): for every start [k], the
    video clips of the pairs that start at [k] are, in order, the matched
    video clips that start at [k]. *)
Theorem find_clip_pairs_sorted_stable (h : Store) (videos audios : list addr)
    (k : Z) :
  Sorted (λ p q, start p ≤ start q) (find_clip_pairs h videos audios)
  ∧ (length (find_clip_pairs h videos audios) ≤ length videos)%nat
  ∧ video_clip <$> filter (λ p, start p = k) (find_clip_pairs h videos audios)
    = filter (λ v, parse_int_property h v "Start" 0 = k
                   ∧ clip_key h v ∈ clip_key h <$> audios) videos.
Proof.
  unfold find_clip_pairs. cbv zeta. fold (audio_lookup_of h audios ∅).
  split; [apply sort_by_start_sorted|]. split.
  - rewrite sort_by_start_perm. apply omap_length_le.
  - rewrite sort_by_start_stable. apply (filter_omap_pairs h audios k videos).
Qed.

(* ===================================================================== *)
(** ** More on boundary detection *)
(* ===================================================================== *)

Lemma elem_of_find_eligible_boundaries h P G bd :
  bd ∈ find_eligible_boundaries h P G ↔
  ∃ (i : nat) p q,
    P !! i = Some p ∧ P !! S i = Some q
    ∧ is_aligned h p = true ∧ is_aligned h q = true
    ∧ 0 ≤ start q - (start p + duration p) ≤ G
    ∧ bd = mkBoundary p q (start p + duration p).
Proof.
  unfold find_eligible_boundaries. rewrite list_elem_of_omap. split.
  - intros (i & _ & Hi). exists i. by apply boundary_at_spec.
  - intros (i & p & q & Hp & Hq & Hrest). exists i. split.
    + apply elem_of_seq. apply lookup_lt_Some in Hq. lia.
    + apply boundary_at_spec. by exists p, q.
Qed.

Lemma omap_sublist {A B} (f g : A → option B) (l : list A) :
  (∀ x y, f x = Some y → g x = Some y) →
  omap f l `sublist_of` omap g l.
Proof.
  intros Hfg. induction l as [|x l IH]; [done|]. cbn.
  destruct (f x) as [y|] eqn:E.
  - rewrite (Hfg _ _ E). by apply sublist_skip.
  - destruct (g x); [by apply sublist_cons | done].
Qed.

(** X7. There are fewer boundaries than pairs (none for an empty or
    one-pair list), and none at all for a negative [max_gap]. *)
Theorem find_eligible_boundaries_bounds (h : Store) (P : list ClipPair)
    (G : Z) :
  (length (find_eligible_boundaries h P G) ≤ length P - 1)%nat
  ∧ (G < 0 → find_eligible_boundaries h P G = []).
Proof.
  split.
  - unfold find_eligible_boundaries.
    etransitivity; [apply omap_length_le|]. by rewrite length_seq.
  - intros HG. apply elem_of_nil_inv. intros bd.
    rewrite elem_of_find_eligible_boundaries.
    intros (i & p & q & _ & _ & _ & _ & Hgap & _). lia.
Qed.

(** X8. Raising [max_gap] only adds boundaries: the boundaries found for a
    gap [G] are, in order, among those found for any larger gap. *)
Theorem find_eligible_boundaries_mono (h : Store) (P : list ClipPair)
    (G G' : Z) :
  G ≤ G' →
  find_eligible_boundaries h P G `sublist_of` find_eligible_boundaries h P G'.
Proof.
  intros HG. apply omap_sublist. intros i bd.
  rewrite !boundary_at_spec.
  intros (p & q & Hp & Hq & Ap & Aq & Hgap & ->).
  exists p, q. split_and!; done || lia.
Qed.

Lemma find_eligible_boundaries_mono_witness :
  0 ≤ 10
  ∧ find_eligible_boundaries (timeline 100 0) [pair_A; pair_B 100 0] 0
    `sublist_of` [boundary_AB 0].
Proof.
  assert (0 ≤ 10) as HG by lia. split; [exact HG|].
  rewrite <- timeline_boundary.
  apply (find_eligible_boundaries_mono _ _ 0 10 HG).
Defined.

(** X9. For a boundary the detector returned with gap [G], the figures
    [get_boundary_info] displays agree: the frames of the before clip end
    at the cut frame, and the after clip starts there or at most [G]
    frames later. *)
Theorem get_boundary_info_detected (h : Store) (P : list ClipPair) (G : Z)
    (b : Boundary) :
  b ∈ find_eligible_boundaries h P G →
  Info.before_end (get_boundary_info b) = Info.cut_frame (get_boundary_info b)
  ∧ Info.cut_frame (get_boundary_info b)
    ≤ Info.after_start (get_boundary_info b)
    ≤ Info.cut_frame (get_boundary_info b) + G.
Proof.
  rewrite elem_of_find_eligible_boundaries.
  intros (i & p & q & _ & _ & _ & _ & Hgap & ->). simpl. lia.
Qed.

Lemma get_boundary_info_detected_witness :
  boundary_AB 0 ∈ find_eligible_boundaries (timeline 100 0)
                    [pair_A; pair_B 100 0] 10
  ∧ Info.before_end (get_boundary_info (boundary_AB 0)) = 100
  ∧ Info.after_start (get_boundary_info (boundary_AB 0)) ≤ 100 + 10.
Proof.
  assert (boundary_AB 0 ∈ find_eligible_boundaries (timeline 100 0)
                            [pair_A; pair_B 100 0] 10) as Hin
    by (rewrite timeline_boundary; apply list_elem_of_here).
  split; [exact Hin|].
  destruct (get_boundary_info_detected _ _ _ _ Hin) as (H1 & _ & H2).
  split; [exact H1 | exact H2].
Defined.

(* ===================================================================== *)
(** ** More on the cut transforms *)
(* ===================================================================== *)

Lemma apply_j_cut_clip_frame b o dry h a :
  j_target b ≠ a → clip_at (apply_j_cut b o dry h).2 a = clip_at h a.
Proof.
  intros Hne. rewrite apply_j_cut_store.
  destruct (_ && _); [|done]. by rewrite clip_at_alter_ne.
Qed.

Lemma apply_l_cut_clip_frame b o dry h a :
  l_target b ≠ a → clip_at (apply_l_cut b o dry h).2 a = clip_at h a.
Proof.
  intros Hne. rewrite apply_l_cut_store.
  destruct (_ && _); [|done]. by rewrite clip_at_alter_ne.
Qed.

Lemma is_aligned_false_start h p :
  parse_int_property h (video_clip p) "Start" 0
  ≠ parse_int_property h (audio_clip p) "Start" 0 →
  is_aligned h p = false.
Proof.
  intros Hne. apply not_true_is_false.
  intros (Hs & _)%is_aligned_spec. done.
Qed.

Lemma is_aligned_false_duration h p :
  parse_int_property h (video_clip p) "Duration" 0
  ≠ parse_int_property h (audio_clip p) "Duration" 0 →
  is_aligned h p = false.
Proof.
  intros Hne. apply not_true_is_false.
  intros (_ & Hd & _)%is_aligned_spec. done.
Qed.

(** X10. An applied J-cut takes its boundary out of the eligible ones: the
    after pair, if it was aligned and its video and audio are different
    elements, is no longer aligned, so detection on the resulting
    timeline does not return this boundary again, for any list of pairs
    and any gap. *)
Theorem j_cut_breaks_alignment (h : Store) (b : Boundary) (o : Z) :
  video_clip (clip_pair_after b) ≠ audio_clip (clip_pair_after b) →
  is_aligned h (clip_pair_after b) = true →
  (apply_j_cut b o false h).1.1 = true →
  is_aligned (apply_j_cut b o false h).2 (clip_pair_after b) = false
  ∧ ∀ P G, b ∉ find_eligible_boundaries (apply_j_cut b o false h).2 P G.
Proof.
  intros Hne (Hal & _)%is_aligned_spec Hs.
  assert (is_aligned (apply_j_cut b o false h).2 (clip_pair_after b) = false)
    as Hmis.
  { apply is_aligned_false_start.
    destruct (apply_j_cut_reads b o h Hs) as (-> & _).
    rewrite (parse_int_property_at _ (video_clip _)).
    rewrite apply_j_cut_clip_frame by (unfold j_target; congruence).
    rewrite <- parse_int_property_at, Hal.
    rewrite apply_j_cut_verdict in Hs. apply j_ok_spec in Hs. lia. }
  split; [exact Hmis|].
  intros P G (i & p & q & _ & _ & _ & Aq & _ & ->)%elem_of_find_eligible_boundaries.
  simpl in *. congruence.
Qed.

Lemma j_cut_breaks_alignment_witness :
  (apply_j_cut (boundary_AB 20) 8 false (timeline 100 20)).1.1 = true
  ∧ find_eligible_boundaries
      (apply_j_cut (boundary_AB 20) 8 false (timeline 100 20)).2
      [pair_A; pair_B 100 20] 10 = [].
Proof.
  assert ((apply_j_cut (boundary_AB 20) 8 false (timeline 100 20)).1.1 = true)
    as Hs by (vm_compute; reflexivity).
  split; [exact Hs|].
  assert (is_aligned (apply_j_cut (boundary_AB 20) 8 false (timeline 100 20)).2
            (clip_pair_after (boundary_AB 20)) = false) as Hmis.
  { apply (j_cut_breaks_alignment (timeline 100 20) (boundary_AB 20) 8).
    - discriminate.
    - vm_compute. reflexivity.
    - exact Hs. }
  change (clip_pair_after (boundary_AB 20)) with (pair_B 100 20) in Hmis.
  apply elem_of_nil_inv. intros bd.
  intros (i & p & q & Hp & Hq & _ & Aq & _)%elem_of_find_eligible_boundaries.
  destruct i as [|[|i]]; [|done|done].
  injection Hq as <-. congruence.
Defined.

(** X11. An applied L-cut does the same through the before pair: aligned
    before the cut (video and audio being different elements), it is not
    after it, and the boundary is not detected again. *)
Theorem l_cut_breaks_alignment (h : Store) (b : Boundary) (o : Z) :
  video_clip (clip_pair_before b) ≠ audio_clip (clip_pair_before b) →
  is_aligned h (clip_pair_before b) = true →
  (apply_l_cut b o false h).1.1 = true →
  is_aligned (apply_l_cut b o false h).2 (clip_pair_before b) = false
  ∧ ∀ P G, b ∉ find_eligible_boundaries (apply_l_cut b o false h).2 P G.
Proof.
  intros Hne (_ & Hal & _)%is_aligned_spec Hs.
  assert (is_aligned (apply_l_cut b o false h).2 (clip_pair_before b) = false)
    as Hmis.
  { apply is_aligned_false_duration.
    rewrite (apply_l_cut_reads b o h Hs).
    rewrite (parse_int_property_at _ (video_clip _)).
    rewrite apply_l_cut_clip_frame by (unfold l_target; congruence).
    rewrite <- parse_int_property_at, Hal.
    rewrite apply_l_cut_verdict in Hs. apply l_ok_spec in Hs. lia. }
  split; [exact Hmis|].
  intros P G (i & p & q & _ & _ & Ap & _ & _ & ->)%elem_of_find_eligible_boundaries.
  simpl in *. congruence.
Qed.

Lemma l_cut_breaks_alignment_witness :
  (apply_l_cut (boundary_AB 0) 8 false (timeline 100 0)).1.1 = true
  ∧ is_aligned (apply_l_cut (boundary_AB 0) 8 false (timeline 100 0)).2 pair_A
    = false.
Proof.
  assert ((apply_l_cut (boundary_AB 0) 8 false (timeline 100 0)).1.1 = true)
    as Hs by (vm_compute; reflexivity).
  split; [exact Hs|].
  apply (l_cut_breaks_alignment (timeline 100 0) (boundary_AB 0) 8).
  - discriminate.
  - vm_compute. reflexivity.
  - exact Hs.
Defined.





Lemma apply_j_cut_nonpositive b o dry h :
  o ≤ 0 → apply_j_cut b o dry h = ((false, "Offset must be positive"), h).
Proof.
  intros Ho. unfold apply_j_cut.
  destruct (Z.leb_spec o 0); [done | lia].
Qed.

Lemma apply_l_cut_nonpositive b o dry h :
  o ≤ 0 → apply_l_cut b o dry h = ((false, "Offset must be positive"), h).
Proof.
  intros Ho. unfold apply_l_cut.
  destruct (Z.leb_spec o 0); [done | lia].
Qed.

(** X14. [validate_j_cut] and [validate_l_cut] leave the store as it is,
    and accept exactly the boundaries and offsets on which the cut itself,
    run next on that store, succeeds. *)
Theorem validate_cut_predicts_apply (h : Store) (b : Boundary) (o : Z) :
  (validate_j_cut b o h).2 = h
  ∧ (validate_j_cut b o h).1.1
    = (apply_j_cut b o false (validate_j_cut b o h).2).1.1
  ∧ (validate_l_cut b o h).2 = h
  ∧ (validate_l_cut b o h).1.1
    = (apply_l_cut b o false (validate_l_cut b o h).2).1.1.
Proof.
  unfold validate_j_cut, validate_l_cut.
  assert ((apply_j_cut b o true h).2 = h) as Hj
    by (rewrite apply_j_cut_store; by rewrite andb_false_r).
  assert ((apply_l_cut b o true h).2 = h) as Hl
    by (rewrite apply_l_cut_store; by rewrite andb_false_r).
  rewrite Hj, Hl. split_and!; try done.
  - by rewrite !apply_j_cut_verdict.
  - by rewrite !apply_l_cut_verdict.
Qed.

(* ===================================================================== *)
(** ** More on batch application *)
(* ===================================================================== *)

Section batch_accounting.
(** Any cut function at all. *)
Context (cut : Boundary → Z → bool → M (bool * string)).

Lemma cuts_loop_accounting o dry bs :
  ∀ i r h,
    let R := (cuts_loop cut o dry i bs r h).1 in
    success_count R + fail_count R
    = success_count r + fail_count r + Z.of_nat (length bs)
    ∧ length (messages R) = (length (messages r) + length bs)%nat
    ∧ ∃ s, successful_boundaries R = (successful_boundaries r ++ s)%list
           ∧ s `sublist_of` bs
           ∧ success_count R = success_count r + Z.of_nat (length s).
Proof.
  induction bs as [|b bs IH]; intros i r h; cbv zeta.
  - simpl. split; [lia|]. split; [lia|].
    exists []. rewrite app_nil_r. split_and!; [done|done|simpl; lia].
  - simpl. unfold mbind, M_bind.
    destruct (cut b o dry h) as [[v m] h1]. simpl.
    destruct v.
    + edestruct (IH (S i)) as (Hc & Hm & s & Hs & Hsub & Hn).
      rewrite Hc, Hm, Hs. simpl in *. rewrite length_app in *. simpl in *.
      split; [lia|]. split; [lia|].
      exists (b :: s). rewrite <- app_assoc. simpl.
      split_and!; [done | by apply sublist_skip | simpl; lia].
    + edestruct (IH (S i)) as (Hc & Hm & s & Hs & Hsub & Hn).
      rewrite Hc, Hm, Hs. simpl in *. rewrite length_app in *. simpl in *.
      split; [lia|]. split; [lia|].
      exists s. split_and!; [done | by apply sublist_cons | lia].
Qed.

(** A function that never mutates: the store comes back, and the
    successful boundaries are those it accepts on that store. *)
Lemma cuts_loop_pure o dry bs :
  (∀ b h, (cut b o dry h).2 = h) →
  ∀ i r h,
    (cuts_loop cut o dry i bs r h).2 = h
    ∧ successful_boundaries (cuts_loop cut o dry i bs r h).1
      = (successful_boundaries r
         ++ filter (λ b, (cut b o dry h).1.1 = true) bs)%list.
Proof.
  intros Hpure. induction bs as [|b bs IH]; intros i r h.
  - simpl. by rewrite app_nil_r.
  - simpl. unfold mbind, M_bind. rewrite filter_cons.
    pose proof (Hpure b h) as Hb.
    destruct (cut b o dry h) as [[v m] h1]. simpl in *. subst h1.
    destruct v.
    + rewrite decide_True by done.
      destruct (IH (S i)
                  (mkResults (success_count r + 1) (fail_count r)
                     (messages r ++
                        ["  ✓ Boundary " +:+ PyInt.str (Z.of_nat i + 1)
                         +:+ ": " +:+ m])
                     (successful_boundaries r ++ [b])) h) as [-> ->].
      simpl. by rewrite <- app_assoc.
    + rewrite decide_False by done.
      by destruct (IH (S i)
                     (mkResults (success_count r) (fail_count r + 1)
                        (messages r ++
                           ["  ✗ Boundary " +:+ PyInt.str (Z.of_nat i + 1)
                            +:+ ": " +:+ m])
                        (successful_boundaries r)) h) as [-> ->].
Qed.
End batch_accounting.

(** X15. The batch accounts for every boundary once:
    [success_count + fail_count] is the number of boundaries, there is one
    message per boundary, [success_count] is the number of
    [successful_boundaries], and those are boundaries of the input in
    their input order. *)
Theorem apply_cuts_accounting (boundaries : list Boundary) (o : Z)
    (cut_type : string) (dry_run : bool) (h : Store) :
  let r := (apply_cuts_to_timeline boundaries o cut_type dry_run h).1 in
  success_count r + fail_count r = Z.of_nat (length boundaries)
  ∧ length (messages r) = length boundaries
  ∧ success_count r = Z.of_nat (length (successful_boundaries r))
  ∧ successful_boundaries r `sublist_of` boundaries.
Proof.
  cbv zeta. unfold apply_cuts_to_timeline.
  edestruct (cuts_loop_accounting) as (Hc & Hm & s & Hs & Hsub & Hn).
  rewrite Hc, Hm, Hs, Hn. simpl. split_and!; done || lia.
Qed.

Lemma dry_run_store b o h :
  (apply_j_cut b o true h).2 = h ∧ (apply_l_cut b o true h).2 = h.
Proof.
  rewrite apply_j_cut_store, apply_l_cut_store. by rewrite !andb_false_r.
Qed.

(** X16. A batch with [dry_run] true mutates nothing, and its
    [successful_boundaries] are exactly the boundaries on which the
    selected cut validates on the store as given. *)
Theorem apply_cuts_dry_run (boundaries : list Boundary) (o : Z)
    (cut_type : string) (h : Store) :
  (apply_cuts_to_timeline boundaries o cut_type true h).2 = h
  ∧ successful_boundaries (apply_cuts_to_timeline boundaries o cut_type true h).1
    = filter (λ b, (cut_function_of cut_type b o true h).1.1 = true)
             boundaries.
Proof.
  unfold apply_cuts_to_timeline. fold (cut_function_of cut_type).
  assert (∀ b k, (cut_function_of cut_type b o true k).2 = k) as Hpure.
  { intros b k. unfold cut_function_of.
    destruct (String.eqb _ _); apply dry_run_store. }
  exact (cuts_loop_pure (cut_function_of cut_type) o true boundaries Hpure
           0%nat (mkResults 0 0 [] []) h).
Qed.

(** X17. For an offset that is not positive both transforms refuse with
    the message "Offset must be positive" and mutate nothing, so a batch
    fails on every boundary. *)
Theorem nonpositive_offset_refused (boundaries : list Boundary) (b : Boundary)
    (o : Z) (cut_type : string) (dry_run : bool) (h : Store) :
  o ≤ 0 →
  apply_j_cut b o dry_run h = ((false, "Offset must be positive"), h)
  ∧ apply_l_cut b o dry_run h = ((false, "Offset must be positive"), h)
  ∧ (apply_cuts_to_timeline boundaries o cut_type dry_run h).2 = h
  ∧ success_count (apply_cuts_to_timeline boundaries o cut_type dry_run h).1
    = 0
  ∧ fail_count (apply_cuts_to_timeline boundaries o cut_type dry_run h).1
    = Z.of_nat (length boundaries).
Proof.
  intros Ho.
  split; [by apply apply_j_cut_nonpositive|].
  split; [by apply apply_l_cut_nonpositive|].
  unfold apply_cuts_to_timeline.
  set (cut := if String.eqb (upper cut_type) "J"
              then apply_j_cut else apply_l_cut).
  assert (∀ b k, cut b o dry_run k = ((false, "Offset must be positive"), k))
    as Hcut.
  { intros b' k. unfold cut. destruct (String.eqb _ _).
    - by apply apply_j_cut_nonpositive.
    - by apply apply_l_cut_nonpositive. }
  destruct (cuts_loop_pure cut o dry_run boundaries) with
    (i := 0%nat) (r := mkResults 0 0 [] []) (h := h) as [Hst Hsb].
  { intros b' k. by rewrite Hcut. }
  split; [exact Hst|].
  destruct (cuts_loop_accounting cut o dry_run boundaries 0
              (mkResults 0 0 [] []) h) as (Hc & _ & s & Hs & _ & Hn).
  rewrite Hsb in Hs. simpl in Hs.
  assert (s = []) as ->.
  { rewrite <- Hs. clear -Hcut. induction boundaries as [|b' bs IH]; [done|].
    rewrite filter_cons, decide_False; [done|]. by rewrite Hcut. }
  simpl in *. lia.
Qed.

Lemma nonpositive_offset_refused_witness :
  0 ≤ 0
  ∧ fail_count
      (apply_cuts_to_timeline [boundary_AB 0; boundary_BA] 0 "L" false
         (timeline 100 0)).1 = 2.
Proof.
  assert (0 ≤ 0) as Ho by lia. split; [exact Ho|].
  by destruct (nonpositive_offset_refused [boundary_AB 0; boundary_BA]
                 (boundary_AB 0) 0 "L" false (timeline 100 0) Ho)
    as (_ & _ & _ & _ & ->).
Defined.

(** The verdict and the message of a cut depend on the store through the
    target element only. *)
Lemma apply_j_cut_local b o dry dry' h h' :
  clip_at h (j_target b) = clip_at h' (j_target b) →
  (apply_j_cut b o dry h).1 = (apply_j_cut b o dry' h').1.
Proof.
  unfold apply_j_cut, j_target. intros Heq. run_cut o; [done|].
  rewrite Heq. split_tests; try done. by destruct dry, dry'.
Qed.

Lemma apply_l_cut_local b o dry dry' h h' :
  clip_at h (l_target b) = clip_at h' (l_target b) →
  (apply_l_cut b o dry h).1 = (apply_l_cut b o dry' h').1.
Proof.
  unfold apply_l_cut, l_target. intros Heq. run_cut o; [done|].
  rewrite Heq. split_tests; try done. by destruct dry, dry'.
Qed.

Section batch_distinct.
Context (cut : Boundary → Z → bool → M (bool * string)).
Context (target : Boundary → addr).
Context (ok : Z → Clip → bool) (upd : Z → Clip → Clip).
Hypothesis cut_store : ∀ b o dry h,
  (cut b o dry h).2 =
    if ok o (clip_at h (target b)) && negb dry
    then alter (upd o) (target b) h else h.
Hypothesis cut_local : ∀ b o dry dry' h h',
  clip_at h (target b) = clip_at h' (target b) →
  (cut b o dry h).1 = (cut b o dry' h').1.

Lemma cut_other_clip x o dry h a :
  target x ≠ a → clip_at (cut x o dry h).2 a = clip_at h a.
Proof.
  intros Hne. rewrite cut_store.
  destruct (_ && _); [|done]. by rewrite clip_at_alter_ne.
Qed.

(** With pairwise distinct targets every cut of the loop sees its target
    as the initial store has it. *)
Lemma cuts_loop_distinct o dry dry' bs :
  NoDup (target <$> bs) →
  ∀ i r h h',
    (∀ b, b ∈ bs → clip_at h (target b) = clip_at h' (target b)) →
    (cuts_loop cut o dry i bs r h).1 = (cuts_loop cut o dry' i bs r h').1.
Proof.
  induction bs as [|b bs IH]; intros Hnd i r h h' Hag; [done|].
  rewrite fmap_cons in Hnd. apply NoDup_cons in Hnd as [Hb Hnd].
  simpl. unfold mbind, M_bind.
  pose proof (cut_local b o dry dry' h h' (Hag b (list_elem_of_here _ _)))
    as Heq.
  pose proof (cut_other_clip b o dry h) as F1.
  pose proof (cut_other_clip b o dry' h') as F2.
  destruct (cut b o dry h) as [[v m] h1].
  destruct (cut b o dry' h') as [[v' m'] h1'].
  simpl in *. injection Heq as <- <-.
  apply IH; [done|]. intros b' Hb'.
  assert (target b ≠ target b') as Hne.
  { intros Heq. apply Hb. rewrite Heq. by apply list_elem_of_fmap_2. }
  rewrite F1, F2 by done. by apply Hag, list_elem_of_further.
Qed.
End batch_distinct.

(** X18. When the boundaries of a batch have pairwise distinct target
    audio elements, the dry run predicts the live run exactly: the same
    counts, the same messages and the same successful boundaries. *)
Theorem dry_run_batch_predicts_live (boundaries : list Boundary) (o : Z)
    (cut_type : string) (h : Store) :
  NoDup (target_of cut_type <$> boundaries) →
  (apply_cuts_to_timeline boundaries o cut_type false h).1
  = (apply_cuts_to_timeline boundaries o cut_type true h).1.
Proof.
  unfold apply_cuts_to_timeline, target_of. intros Hnd.
  destruct (String.eqb (upper cut_type) "J").
  - apply (cuts_loop_distinct apply_j_cut j_target j_ok j_update
             apply_j_cut_store apply_j_cut_local); done.
  - apply (cuts_loop_distinct apply_l_cut l_target l_ok l_update
             apply_l_cut_store apply_l_cut_local); done.
Qed.

Lemma dry_run_batch_predicts_live_witness :
  NoDup (target_of "J" <$> [boundary_AB 20; boundary_BA])
  ∧ success_count
      (apply_cuts_to_timeline [boundary_AB 20; boundary_BA] 8 "J" false
         (timeline 100 20)).1 = 1.
Proof.
  assert (NoDup (target_of "J" <$> [boundary_AB 20; boundary_BA])) as Hnd.
  { apply (bool_decide_unpack _). vm_compute. exact I. }
  split; [exact Hnd|].
  rewrite (dry_run_batch_predicts_live _ 8 "J" (timeline 100 20) Hnd).
  vm_compute. reflexivity.
Defined.

(* ===================================================================== *)
(** ** Distinct pairs, distinct boundaries, distinct targets *)
(* ===================================================================== *)

Lemma NoDup_fmap_omap {A B C} (f : A → option B) (g : B → C) (l : list A) :
  NoDup l →
  (∀ x y b b', x ∈ l → y ∈ l → f x = Some b → f y = Some b' →
               g b = g b' → x = y) →
  NoDup (g <$> omap f l).
Proof.
  induction 1 as [|x l Hx Hl IH]; intros Hinj; [constructor|]. cbn.
  assert (NoDup (g <$> omap f l)) as Hrec.
  { apply IH. intros y z b b' Hy Hz. apply Hinj; by apply list_elem_of_further. }
  destruct (f x) as [b|] eqn:E; [|exact Hrec].
  rewrite fmap_cons. apply NoDup_cons. split; [|exact Hrec].
  intros (b' & Hg & (y & Hy & Hfy)%list_elem_of_omap)%list_elem_of_fmap.
  apply Hx. rewrite (Hinj x y b b'); try done.
  - apply list_elem_of_here.
  - by apply list_elem_of_further.
Qed.

Lemma NoDup_fmap_lookup {A B} (g : A → B) (l : list A) i j x y :
  NoDup (g <$> l) → l !! i = Some x → l !! j = Some y → g x = g y → i = j.
Proof.
  intros Hnd Hi Hj Hg.
  apply (proj1 (NoDup_alt (g <$> l)) Hnd i j (g x));
    rewrite list_lookup_fmap; [by rewrite Hi | by rewrite Hj, Hg].
Qed.

Lemma boundaries_NoDup_proj {X} (proj : ClipPair → X) h P G :
  NoDup (proj <$> P) →
  NoDup ((proj ∘ clip_pair_before) <$> find_eligible_boundaries h P G)
  ∧ NoDup ((proj ∘ clip_pair_after) <$> find_eligible_boundaries h P G).
Proof.
  intros Hnd. unfold find_eligible_boundaries.
  split; apply NoDup_fmap_omap; try apply NoDup_seq;
    intros i j b b' _ _
      (p & q & Hp & Hq & _ & _ & _ & ->)%boundary_at_spec
      (p' & q' & Hp' & Hq' & _ & _ & _ & ->)%boundary_at_spec; simpl;
    intros Hg.
  - by apply (NoDup_fmap_lookup proj P i j p p').
  - assert (S i = S j) by (by apply (NoDup_fmap_lookup proj P _ _ q q')).
    lia.
Qed.

(** X19. On a list of pairwise different pairs no boundary is returned
    twice, and each pair is the before pair of at most one boundary and
    the after pair of at most one. *)
Theorem find_eligible_boundaries_NoDup (h : Store) (P : list ClipPair)
    (G : Z) :
  NoDup P →
  NoDup (find_eligible_boundaries h P G)
  ∧ NoDup (clip_pair_before <$> find_eligible_boundaries h P G)
  ∧ NoDup (clip_pair_after <$> find_eligible_boundaries h P G).
Proof.
  intros Hnd.
  destruct (boundaries_NoDup_proj id h P G) as [Hb Ha];
    [by rewrite list_fmap_id|].
  split; [|split; [exact Hb | exact Ha]].
  by apply (NoDup_fmap_1 clip_pair_before).
Qed.

Lemma find_eligible_boundaries_NoDup_witness :
  NoDup [pair_A; pair_B 100 0]
  ∧ NoDup (clip_pair_after
             <$> find_eligible_boundaries (timeline 100 0)
                   [pair_A; pair_B 100 0] 10).
Proof.
  assert (NoDup [pair_A; pair_B 100 0]) as Hnd.
  { apply NoDup_cons. split; [|apply NoDup_singleton].
    intros [=]%list_elem_of_singleton. }
  split; [exact Hnd|].
  by destruct (find_eligible_boundaries_NoDup (timeline 100 0) _ 10 Hnd)
    as (_ & _ & ?).
Defined.

Lemma NoDup_fmap_inj_on {A B} (g : A → B) (l : list A) x y :
  NoDup (g <$> l) → x ∈ l → y ∈ l → g x = g y → x = y.
Proof.
  intros Hnd (i & Hi)%list_elem_of_lookup (j & Hj)%list_elem_of_lookup Hg.
  assert (i = j) as -> by (by apply (NoDup_fmap_lookup g l i j x y)).
  congruence.
Qed.

Lemma find_clip_pairs_perm h videos audios :
  find_clip_pairs h videos audios
  ≡ₚ omap (λ v, pair_of h v <$> (audio_lookup_of h audios ∅ !! clip_key h v))
          videos.
Proof.
  unfold find_clip_pairs. cbv zeta. fold (audio_lookup_of h audios ∅).
  rewrite sort_by_start_perm. done.
Qed.

Lemma find_clip_pairs_distinct h videos audios :
  NoDup (clip_key h <$> videos) →
  NoDup (audio_clip <$> find_clip_pairs h videos audios).
Proof.
  intros Hnd. rewrite find_clip_pairs_perm.
  apply NoDup_fmap_omap; [by apply (NoDup_fmap_1 (clip_key h))|].
  intros v v' p p' Hv Hv' Hp Hp' Ha.
  destruct (audio_lookup_of h audios ∅ !! clip_key h v) as [a|] eqn:E;
    [|done].
  destruct (audio_lookup_of h audios ∅ !! clip_key h v') as [a'|] eqn:E';
    [|done].
  simpl in Hp, Hp'. injection Hp as <-. injection Hp' as <-. simpl in Ha.
  subst a'.
  apply audio_lookup_sound in E as [E|[_ Hk]]; [by rewrite lookup_empty in E|].
  apply audio_lookup_sound in E' as [E'|[_ Hk']];
    [by rewrite lookup_empty in E'|].
  apply (NoDup_fmap_inj_on (clip_key h) videos); congruence.
Qed.

(** X20. When the video clips have pairwise different keys, the pairs
    hold pairwise different audio elements and the boundaries detected on
    them have pairwise different targets; on these boundaries the dry run
    of a batch returns exactly the results of the live run. *)
Theorem pipeline_dry_run_predicts_live (h : Store)
    (videos audios : list addr) (G o : Z) (cut_type : string) :
  NoDup (clip_key h <$> videos) →
  let boundaries :=
    find_eligible_boundaries h (find_clip_pairs h videos audios) G in
  NoDup (audio_clip <$> find_clip_pairs h videos audios)
  ∧ NoDup (target_of cut_type <$> boundaries)
  ∧ (apply_cuts_to_timeline boundaries o cut_type false h).1
    = (apply_cuts_to_timeline boundaries o cut_type true h).1.
Proof.
  intros Hnd boundaries.
  pose proof (find_clip_pairs_distinct h videos audios Hnd) as Hpairs.
  assert (NoDup (target_of cut_type <$> boundaries)) as Htargets.
  { destruct (boundaries_NoDup_proj audio_clip h
                (find_clip_pairs h videos audios) G Hpairs) as [Hb Ha].
    unfold target_of. by destruct (String.eqb _ _). }
  split; [exact Hpairs|]. split; [exact Htargets|].
  unfold apply_cuts_to_timeline, target_of in *.
  destruct (String.eqb (upper cut_type) "J").
  - apply (cuts_loop_distinct apply_j_cut j_target j_ok j_update
             apply_j_cut_store apply_j_cut_local); done.
  - apply (cuts_loop_distinct apply_l_cut l_target l_ok l_update
             apply_l_cut_store apply_l_cut_local); done.
Qed.

Lemma pipeline_dry_run_predicts_live_witness :
  NoDup (clip_key (timeline 100 0) <$> [3; 1]%positive)
  ∧ success_count
      (apply_cuts_to_timeline
         (find_eligible_boundaries (timeline 100 0)
            (find_clip_pairs (timeline 100 0) [3; 1]%positive [2; 4]%positive)
            10)
         8 "L" false (timeline 100 0)).1 = 1.
Proof.
  assert (NoDup (clip_key (timeline 100 0) <$> [3; 1]%positive)) as Hnd.
  { apply (bool_decide_unpack _). vm_compute. exact I. }
  split; [exact Hnd|].
  destruct (pipeline_dry_run_predicts_live (timeline 100 0)
              [3; 1]%positive [2; 4]%positive 10 8 "L" Hnd) as (_ & _ & ->).
  vm_compute. reflexivity.
Defined.

(* ===================================================================== *)
(** ** File names and archive checks *)
(* ===================================================================== *)

Lemma endswith_spec s x : endswith s x = true ↔ ∃ p, s = p +:+ x.
Proof.
  split.
  - induction s as [|c s IH]; cbn [endswith]; intros H.
    + rewrite orb_false_r in H. apply String.eqb_eq in H as <-. by exists "".
    + apply orb_prop in H as [H|H].
      * apply String.eqb_eq in H as <-. by exists "".
      * destruct (IH H) as [p ->]. by exists (String c p).
  - intros [p ->]. induction p as [|c p IH].
    + change ("" +:+ x) with x.
      destruct x; cbn [endswith]; by rewrite String.eqb_refl.
    + change (String c p +:+ x) with (String c (p +:+ x)).
      cbn [endswith]. by rewrite IH, orb_true_r.
Qed.

Lemma prefix_spec a s : String.prefix a s = true ↔ ∃ q, s = a +:+ q.
Proof.
  revert s. induction a as [|c a IH]; intros [|c' s]; simpl.
  - split; [by exists "" | done].
  - split; [by exists (String c' s) | done].
  - split; [done | by intros [q [=]]].
  - destruct (ascii_dec c c') as [->|Hne].
    + rewrite IH. split; intros [q Hq]; exists q.
      * simpl. by rewrite Hq.
      * simpl in Hq. by injection Hq.
    + split; [done | intros [q [=]]; done].
Qed.

Lemma contains_spec sub s :
  contains sub s = true ↔ ∃ p q, s = p +:+ sub +:+ q.
Proof.
  split.
  - induction s as [|c s IH]; cbn [contains]; intros H.
    + rewrite orb_false_r in H. apply prefix_spec in H as [q Hq].
      by exists "", q.
    + apply orb_prop in H as [H|H].
      * apply prefix_spec in H as [q Hq]. by exists "", q.
      * destruct (IH H) as (p & q & ->). by exists (String c p), q.
  - intros (p & q & ->). induction p as [|c p IH].
    + change ("" +:+ sub +:+ q) with (sub +:+ q).
      assert (String.prefix sub (sub +:+ q) = true) as Hp
        by (apply prefix_spec; eauto).
      destruct (sub +:+ q); cbn [contains]; by rewrite Hp.
    + change (String c p +:+ sub +:+ q) with (String c (p +:+ sub +:+ q)).
      cbn [contains]. by rewrite IH, orb_true_r.
Qed.

Lemma lower_app p e : lower (p +:+ e) = lower p +:+ lower e.
Proof. induction p as [|c p IH]; simpl; [done | by rewrite IH]. Qed.

Lemma lower_app_inv f q r :
  lower f = q +:+ r → ∃ p e, f = p +:+ e ∧ lower p = q ∧ lower e = r.
Proof.
  revert f. induction q as [|c q IH]; intros f H; simpl in H.
  - by exists "", f.
  - destruct f as [|c0 f]; [done|]. simpl in H. injection H as Hc Hf.
    destruct (IH f Hf) as (p & e & -> & Hp & He).
    exists (String c0 p), e. simpl. by rewrite Hc, Hp.
Qed.

(** X21. [validate_file_extension] accepts exactly the names that end in
    [.drp] in any mix of upper and lower case. *)
Theorem validate_file_extension_spec (f : string) :
  validate_file_extension f = true ↔
  ∃ p e, f = p +:+ e ∧ lower e = ".drp".
Proof.
  unfold validate_file_extension, ALLOWED_EXTENSIONS. simpl.
  rewrite orb_false_r, endswith_spec. split.
  - intros [q Hq]. apply lower_app_inv in Hq as (p & e & -> & _ & He). eauto.
  - intros (p & e & -> & He). exists (lower p). by rewrite lower_app, He.
Qed.

(** X22. Whatever the original path and the cut type, the name
    [get_output_name] builds ends in [.drp]: [repack_drp] keeps it as it
    is and [validate_file_extension] accepts it.  In general the name
    [repack_drp] writes to is accepted, and naming is idempotent. *)
Theorem output_name_is_drp (stem : string → string)
    (original_path cut_type output_name : string) :
  repack_name (get_output_name stem original_path cut_type)
  = get_output_name stem original_path cut_type
  ∧ validate_file_extension (get_output_name stem original_path cut_type)
    = true
  ∧ validate_file_extension (repack_name output_name) = true
  ∧ repack_name (repack_name output_name) = repack_name output_name.
Proof.
  assert (∀ s, endswith (s +:+ ".drp") ".drp" = true) as Hend
    by (intros s; apply endswith_spec; eauto).
  assert (∀ s, repack_name (s +:+ ".drp") = s +:+ ".drp") as Hfix
    by (intros s; unfold repack_name; by rewrite Hend).
  assert (∀ s, validate_file_extension (s +:+ ".drp") = true) as Hval.
  { intros s. unfold validate_file_extension, ALLOWED_EXTENSIONS. simpl.
    rewrite orb_false_r, lower_app. apply endswith_spec. eauto. }
  assert (∀ a b c, a +:+ b +:+ c = (a +:+ b) +:+ c) as Hassoc.
  { intros a b c. induction a as [|x a IH]; [done|].
    change (String x (a +:+ b +:+ c) = String x ((a +:+ b) +:+ c)).
    by f_equal. }
  unfold get_output_name. cbv zeta. rewrite Hassoc.
  split; [apply Hfix|]. split; [apply Hval|].
  destruct (endswith output_name ".drp") eqn:E.
  - assert (repack_name output_name = output_name) as Hr
      by (unfold repack_name; by rewrite E).
    rewrite !Hr. split; [|done].
    apply endswith_spec in E as [s ->]. apply Hval.
  - assert (repack_name output_name = output_name +:+ ".drp") as Hr
      by (unfold repack_name; by rewrite E).
    rewrite !Hr. split; [apply Hval | apply Hfix].
Qed.

Lemma first_invalid_path_None l :
  first_invalid_path l = None ↔
  ∀ info, info ∈ l →
    contains ".." (filename info) = false
    ∧ String.prefix "/" (filename info) = false.
Proof.
  induction l as [|i l IH]; simpl.
  - split; [intros _ info Hin; by apply elem_of_nil in Hin | done].
  - destruct (contains ".." (filename i) || String.prefix "/" (filename i))
      eqn:E.
    + split; [done|]. intros H.
      destruct (H i (list_elem_of_here _ _)) as [H1 H2].
      by rewrite H1, H2 in E.
    + apply orb_false_elim in E as [E1 E2]. rewrite IH. split.
      * intros H info [->|Hin]%elem_of_cons; [done | by apply H].
      * intros H info Hin. by apply H, list_elem_of_further.
Qed.

(** X23. [validate_zip_structure] accepts an upload iff it opens as an
    archive, the entries' sizes add up to at most [MAX_EXTRACTED_SIZE]
    (200 MiB), no entry name contains [..] or starts with [/], and some
    entry is named [project.xml]. *)
Theorem validate_zip_structure_spec (archive : option (list ZipInfo)) :
  (validate_zip_structure archive).1 = true ↔
  ∃ infolist,
    archive = Some infolist
    ∧ foldr Z.add 0 (file_size <$> infolist) ≤ 209715200
    ∧ (∀ info, info ∈ infolist →
         (¬ ∃ p q, filename info = p +:+ ".." +:+ q)
         ∧ ¬ ∃ q, filename info = "/" +:+ q)
    ∧ ∃ info, info ∈ infolist ∧ filename info = "project.xml".
Proof.
  destruct archive as [infolist|]; simpl; [|split; [done | by intros (? & [=] & _)]].
  change MAX_EXTRACTED_SIZE with 209715200.
  split.
  - destruct (Z.ltb_spec 209715200 (foldr Z.add 0 (file_size <$> infolist)));
      [done|].
    destruct (first_invalid_path infolist) eqn:E; [done|].
    case_bool_decide as Hp; [|done]. intros _.
    exists infolist. split; [done|]. split; [done|]. split.
    + intros info Hin.
      destruct (proj1 (first_invalid_path_None _) E info Hin) as [H1 H2].
      split.
      * intros Hc%contains_spec. congruence.
      * intros Hc%prefix_spec. congruence.
    + apply list_elem_of_fmap in Hp as (info & Hn & Hin). eauto.
  - intros (l & [= <-] & Hsize & Hpaths & info & Hin & Hname).
    destruct (Z.ltb_spec 209715200 (foldr Z.add 0 (file_size <$> infolist)));
      [lia|].
    assert (first_invalid_path infolist = None) as ->.
    { apply first_invalid_path_None. intros i Hi.
      destruct (Hpaths i Hi) as [H1 H2]. split; apply not_true_is_false.
      - by intros Hc%contains_spec.
      - by intros Hc%prefix_spec. }
    rewrite bool_decide_true; [done|].
    rewrite <- Hname. by apply list_elem_of_fmap_2.
Qed.

(* ===================================================================== *)
(** ** The tracks of a timeline document *)
(* ===================================================================== *)

Lemma xfind_Some t e c :
  xfind t e = Some c → c ∈ xchildren e ∧ xtag c = t.
Proof.
  unfold xfind. intros [Hin Ht]%find_some.
  split; [by apply list_elem_of_In | by apply String.eqb_eq].
Qed.

(** X24. Every item [get_track_items] returns is a child of an [Element]
    child of the track's [Items] element: the first [Sm2TiVideoClip] of
    that [Element] if it has one (also on an audio track), else its first
    [Sm2TiAudioClip]. *)
Theorem get_track_items_sound (track c : XElem) :
  c ∈ get_track_items track →
  ∃ items element,
    xfind "Items" track = Some items
    ∧ element ∈ xchildren items ∧ xtag element = "Element"
    ∧ c ∈ xchildren element
    ∧ match xfind "Sm2TiVideoClip" element with
      | Some video => c = video ∧ xtag c = "Sm2TiVideoClip"
      | None => xfind "Sm2TiAudioClip" element = Some c
                ∧ xtag c = "Sm2TiAudioClip"
      end.
Proof.
  unfold get_track_items.
  destruct (xfind "Items" track) as [items|]; [|by intros ?%elem_of_nil].
  intros (element & Hel & Hc)%list_elem_of_omap.
  exists items, element. split; [done|].
  unfold xfindall in Hel.
  apply list_elem_of_In, filter_In in Hel as [Hin Ht].
  split; [by apply list_elem_of_In|]. split; [by apply String.eqb_eq|].
  destruct (xfind "Sm2TiVideoClip" element) as [video|] eqn:E.
  - injection Hc as <-. by destruct (xfind_Some _ _ _ E).
  - by destruct (xfind_Some _ _ _ Hc).
Qed.

Lemma get_track_items_sound_witness :
  get_track_items sample_track = [sample_video; sample_video]
  ∧ ∃ items, xfind "Items" sample_track = Some items.
Proof.
  assert (get_track_items sample_track = [sample_video; sample_video]) as Hi
    by (vm_compute; reflexivity).
  split; [exact Hi|].
  destruct (get_track_items_sound sample_track sample_video)
    as (items & _ & Hit & _).
  - rewrite Hi. apply list_elem_of_here.
  - by exists items.
Defined.

(** X25. The clips [get_timeline_info] reports come from the first track
    only: a video clip is an item of the [Sm2TiTrack] of the first
    [Element] of [VideoTrackVec], an audio clip likewise under
    [AudioTrackVec]; a document without one of these has no clip on that
    side, and the counts are the lengths of the lists. *)
Theorem get_timeline_info_clips (root c : XElem) :
  (c ∈ video_clips (get_timeline_info root) ↔
   ∃ vec element track,
     xfind "VideoTrackVec" root = Some vec
     ∧ xfind "Element" vec = Some element
     ∧ xfind "Sm2TiTrack" element = Some track
     ∧ c ∈ get_track_items track)
  ∧ (c ∈ audio_clips (get_timeline_info root) ↔
     ∃ vec element track,
       xfind "AudioTrackVec" root = Some vec
       ∧ xfind "Element" vec = Some element
       ∧ xfind "Sm2TiTrack" element = Some track
       ∧ c ∈ get_track_items track)
  ∧ video_clip_count (get_timeline_info root)
    = length (video_clips (get_timeline_info root))
  ∧ audio_clip_count (get_timeline_info root)
    = length (audio_clips (get_timeline_info root)).
Proof.
  unfold get_timeline_info, get_video_track, get_audio_track. simpl.
  split_and!; try done.
  - destruct (xfind "VideoTrackVec" root) as [vec|]; simpl.
    + destruct (xfind "Element" vec) as [element|] eqn:He0; simpl.
      * destruct (xfind "Sm2TiTrack" element) as [track|] eqn:Ht0; simpl.
        -- split.
           ++ intros Hc. by exists vec, element, track.
           ++ intros (v & e & t & Hv & He & Ht & Hc). by simplify_eq.
        -- split; [by intros Hc%elem_of_nil|].
           intros (v & e & t & Hv & He & Ht & Hc). by simplify_eq.
      * split; [by intros Hc%elem_of_nil|].
        intros (v & e & t & Hv & He & Ht & Hc). by simplify_eq.
    + split; [by intros Hc%elem_of_nil|].
      intros (v & e & t & Hv & He & Ht & Hc). by simplify_eq.
  - destruct (xfind "AudioTrackVec" root) as [vec|]; simpl.
    + destruct (xfind "Element" vec) as [element|] eqn:He0; simpl.
      * destruct (xfind "Sm2TiTrack" element) as [track|] eqn:Ht0; simpl.
        -- split.
           ++ intros Hc. by exists vec, element, track.
           ++ intros (v & e & t & Hv & He & Ht & Hc). by simplify_eq.
        -- split; [by intros Hc%elem_of_nil|].
           intros (v & e & t & Hv & He & Ht & Hc). by simplify_eq.
      * split; [by intros Hc%elem_of_nil|].
        intros (v & e & t & Hv & He & Ht & Hc). by simplify_eq.
    + split; [by intros Hc%elem_of_nil|].
      intros (v & e & t & Hv & He & Ht & Hc). by simplify_eq.
Qed.

(* ===================================================================== *)
(** ** What the cuts leave alone *)
(* ===================================================================== *)

(** X26. An applied or refused J-cut changes nothing but [Start],
    [Duration] and [In] of its target: every other property of the
    target (its name and media reference among them) and every property
    of every other clip element reads as before. *)
Theorem apply_j_cut_frame (h : Store) (b : Boundary) (o : Z) (dry_run : bool)
    (clip : addr) (n : string) :
  clip ≠ audio_clip (clip_pair_after b)
  ∨ (n ≠ "Start" ∧ n ≠ "Duration" ∧ n ≠ "In") →
  get_clip_property (apply_j_cut b o dry_run h).2 clip n
  = get_clip_property h clip n.
Proof.
  intros Hne. rewrite apply_j_cut_store.
  destruct (j_ok _ _ && negb dry_run); [|done].
  rewrite !get_clip_property_at.
  destruct (decide (clip = j_target b)) as [->|Hc].
  - rewrite clip_at_alter_eq by done.
    destruct Hne as [?|(? & ? & ?)]; [done|]. by apply j_update_other.
  - by rewrite clip_at_alter_ne.
Qed.

Lemma apply_j_cut_frame_witness :
  get_clip_property
    (apply_j_cut (boundary_AB 20) 8 false (timeline 100 20)).2 4 "Name"
  = Some "B"
  ∧ get_clip_property
      (apply_j_cut (boundary_AB 20) 8 false (timeline 100 20)).2 3 "Start"
    = Some "100".
Proof.
  split.
  - rewrite (apply_j_cut_frame (timeline 100 20) (boundary_AB 20) 8 false 4
               "Name"); [vm_compute; reflexivity|].
    right. repeat split; discriminate.
  - rewrite (apply_j_cut_frame (timeline 100 20) (boundary_AB 20) 8 false 3
               "Start"); [vm_compute; reflexivity|].
    left. discriminate.
Defined.

Section batch_frame.
Context (cut : Boundary → Z → bool → M (bool * string)).
Context (target : Boundary → addr).
Context (ok : Z → Clip → bool) (upd : Z → Clip → Clip).
Hypothesis cut_store : ∀ b o dry h,
  (cut b o dry h).2 =
    if ok o (clip_at h (target b)) && negb dry
    then alter (upd o) (target b) h else h.

Lemma cuts_loop_frame o dry a bs :
  a ∉ target <$> bs →
  ∀ i r h, clip_at (cuts_loop cut o dry i bs r h).2 a = clip_at h a.
Proof.
  induction bs as [|b bs IH]; intros Ha i r h; [done|].
  rewrite fmap_cons in Ha. apply not_elem_of_cons in Ha as [Hb Ha].
  simpl. unfold mbind, M_bind.
  pose proof (cut_store b o dry h) as Hst.
  destruct (cut b o dry h) as [[v m] h1]. simpl in *.
  rewrite IH by done. rewrite Hst.
  destruct (_ && _); [|done]. by rewrite clip_at_alter_ne.
Qed.
End batch_frame.

(** X27. A batch touches the target audio elements of its boundaries and
    nothing else: every property of a clip element that is not a target
    (the video elements of a parsed timeline, the audio of unpaired
    clips) reads after the batch as before. *)
Theorem apply_cuts_frame (boundaries : list Boundary) (o : Z)
    (cut_type : string) (dry_run : bool) (h : Store) (clip : addr)
    (n : string) :
  clip ∉ target_of cut_type <$> boundaries →
  get_clip_property (apply_cuts_to_timeline boundaries o cut_type dry_run h).2
    clip n
  = get_clip_property h clip n.
Proof.
  intros Hc. rewrite !get_clip_property_at. f_equal.
  unfold apply_cuts_to_timeline, target_of in *.
  destruct (String.eqb (upper cut_type) "J").
  - by apply (cuts_loop_frame apply_j_cut j_target j_ok j_update
                apply_j_cut_store).
  - by apply (cuts_loop_frame apply_l_cut l_target l_ok l_update
                apply_l_cut_store).
Qed.

Lemma apply_cuts_frame_witness :
  (3%positive ∉ (target_of "J" <$> [boundary_AB 20; boundary_BA]))
  ∧ get_clip_property
      (apply_cuts_to_timeline [boundary_AB 20; boundary_BA] 8 "J" false
         (timeline 100 20)).2 3 "Start"
    = Some "100".
Proof.
  assert (3%positive ∉ (target_of "J" <$> [boundary_AB 20; boundary_BA]))
    as Hc.
  { apply (bool_decide_unpack _). vm_compute. exact I. }
  split; [exact Hc|].
  rewrite (apply_cuts_frame _ 8 "J" false (timeline 100 20) 3 "Start" Hc).
  vm_compute. reflexivity.
Defined.

(** X28. A successful applied J-cut keeps the end frame of the audio
    ([Start + Duration]) and its offset between timeline and source
    ([Start - In]); a successful applied L-cut keeps [Start] and [In] and
    moves the end frame of the audio later by the offset. *)
Theorem cut_keeps_end_or_start (h : Store) (b : Boundary) (o : Z) :
  ((apply_j_cut b o false h).1.1 = true →
   let a := audio_clip (clip_pair_after b) in
   let h' := (apply_j_cut b o false h).2 in
   parse_int_property h' a "Start" 0 + parse_int_property h' a "Duration" 0
   = parse_int_property h a "Start" 0 + parse_int_property h a "Duration" 0
   ∧ parse_int_property h' a "Start" 0 - parse_int_property h' a "In" 0
     = parse_int_property h a "Start" 0 - parse_int_property h a "In" 0)
  ∧ ((apply_l_cut b o false h).1.1 = true →
     let a := audio_clip (clip_pair_before b) in
     let h' := (apply_l_cut b o false h).2 in
     parse_int_property h' a "Start" 0 + parse_int_property h' a "Duration" 0
     = parse_int_property h a "Start" 0 + parse_int_property h a "Duration" 0
       + o
     ∧ parse_int_property h' a "Start" 0 = parse_int_property h a "Start" 0
     ∧ parse_int_property h' a "In" 0 = parse_int_property h a "In" 0).
Proof.
  split; intros Hs; cbv zeta.
  - destruct (apply_j_cut_reads b o h Hs) as (-> & -> & ->). lia.
  - rewrite (apply_l_cut_reads b o h Hs).
    assert (∀ n, n ≠ "Duration" →
              parse_int_property (apply_l_cut b o false h).2
                (audio_clip (clip_pair_before b)) n 0
              = parse_int_property h (audio_clip (clip_pair_before b)) n 0)
      as Hfr.
    { intros n Hn. unfold parse_int_property.
      by rewrite apply_l_cut_frame by (by right). }
    rewrite !Hfr by discriminate. split_and!; done || lia.
Qed.



(* ===================================================================== *)
(** ** Properties of the transforms under the limit on conversions *)
(* ===================================================================== *)

Lemma over_limit_0 n : Limited.over_limit 0 n = false.
Proof. reflexivity. Qed.

(** Without limit the conversions are those of the first part. *)
Lemma limited_int_0 s : Limited.int 0 s = PyInt.int s.
Proof.
  unfold Limited.int, PyInt.int, Limited.parse_ascii, PyInt.parse_ascii,
    Limited.unsigned, PyInt.unsigned.
  destruct (PyInt.strip _) as [|c r]; [done|].
  destruct c as [[] [] [] [] [] [] [] []]; reflexivity.
Qed.

Lemma limited_str_0 n : Limited.str 0 n = Some (PyInt.str n).
Proof. reflexivity. Qed.

Lemma limited_parse_int_property_0 h clip n d :
  Limited.parse_int_property 0 h clip n d = parse_int_property h clip n d.
Proof.
  unfold Limited.parse_int_property, parse_int_property.
  destruct (get_clip_property h clip n) as [v|]; [|done].
  by rewrite limited_int_0.
Qed.

Ltac run_limited o :=
  destruct (Z.leb_spec o 0);
  cbv [mbind MX_bind M_bind mret MX_ret M_ret Limited.reads reads
       Limited.to_str Limited.set_clip_property set_clip_property].

(** Without limit the transforms never raise, and return and write what
    the transforms of the first part do. *)
Lemma unlimited_apply_j_cut b o dry h :
  Limited.apply_j_cut 0 b o dry h
  = (Returned (apply_j_cut b o dry h).1, (apply_j_cut b o dry h).2).
Proof.
  unfold Limited.apply_j_cut, apply_j_cut. run_limited o; [done|].
  rewrite !limited_str_0.
  split_tests; rewrite ?limited_parse_int_property_0 in *; try lia; try done.
  by destruct dry.
Qed.

Lemma unlimited_apply_l_cut b o dry h :
  Limited.apply_l_cut 0 b o dry h
  = (Returned (apply_l_cut b o dry h).1, (apply_l_cut b o dry h).2).
Proof.
  unfold Limited.apply_l_cut, apply_l_cut. run_limited o; [done|].
  rewrite !limited_str_0.
  split_tests; rewrite ?limited_parse_int_property_0 in *; try lia; try done.
  by destruct dry.
Qed.

Lemma limited_unsigned_uint L d :
  Limited.unsigned L (NilZero.string_of_uint d)
  = if Limited.over_limit L (String.length (NilZero.string_of_uint d))
    then None else Some (Z.of_uint d).
Proof.
  unfold Limited.unsigned.
  rewrite digits_digits; [|apply all_digits_uint0|].
  - simpl. destruct (Limited.over_limit _ _); [done|].
    pose proof (unsigned_uint d) as Hu. unfold PyInt.unsigned in Hu.
    rewrite digits_digits in Hu; [exact Hu | apply all_digits_uint0|].
    left. destruct (head_uint d) as (c & r & -> & _). done.
  - left. destruct (head_uint d) as (c & r & -> & _). done.
Qed.

Lemma limited_parse_head_digit L c r :
  PyInt.is_digit c = true → PyInt.strip (String c r) = String c r →
  Limited.parse_ascii L (String c r) = Limited.unsigned L (String c r).
Proof.
  intros Hc Hs. unfold Limited.parse_ascii. rewrite Hs.
  destruct c as [[] [] [] [] [] [] [] []]; try reflexivity;
    vm_compute in Hc; discriminate Hc.
Qed.

Lemma limited_int_pos L p :
  Limited.over_limit L (String.length (PyInt.str (Z.pos p))) = false →
  Limited.int L (PyInt.str (Z.pos p)) = Some (Z.pos p)
  ∧ Limited.int L (PyInt.str (Z.neg p)) = Some (Z.neg p).
Proof.
  intros Hlim. unfold Limited.int, PyInt.ascii_form.
  rewrite !is_ascii_str.
  pose proof (DecimalZ.of_to (Z.pos p)) as Hv.
  unfold PyInt.str in *. simpl Z.to_int in *.
  simpl NilZero.string_of_int in *. simpl Z.of_int in Hv.
  set (d := Pos.to_uint p) in *. split.
  - destruct (head_uint d) as (c & r & E & Hc).
    pose proof (strip_uint d) as Hs. rewrite E in Hs.
    rewrite E, (limited_parse_head_digit _ _ _ Hc Hs), <- E.
    by rewrite limited_unsigned_uint, Hlim, Hv.
  - unfold Limited.parse_ascii. rewrite strip_minus.
    + rewrite limited_unsigned_uint, Hlim. simpl. by rewrite Hv.
    + apply all_digits_uint0.
    + destruct (head_uint d) as (c & r & E & _). by rewrite E.
Qed.

(** Under any limit, what [str] printed reads back as the number. *)
Lemma limited_int_str L n s :
  Limited.str L n = Some s →
  Limited.int L s = Some n ∧ String.eqb s "" = false.
Proof.
  unfold Limited.str.
  destruct (Limited.over_limit L _) eqn:E; [done|]. intros [= <-].
  split; [|apply str_nonempty].
  destruct n as [|p|p].
  - change (PyInt.str (Z.abs 0)) with "0" in E. change (String.length "0") with 1%nat in E.
    change (PyInt.str 0) with "0".
    change (Limited.int L "0")
      with (if Limited.over_limit L 1 then None else Some 0).
    by rewrite E.
  - by apply limited_int_pos.
  - by apply limited_int_pos.
Qed.

Lemma limited_parse_after_set L h a n z s :
  Limited.str L z = Some s → is_Some (get_clip_property h a n) →
  Limited.parse_int_property L (alter (set_text n s) a h) a n 0 = z.
Proof.
  intros [Hi Hne]%limited_int_str [v Hv]. unfold Limited.parse_int_property.
  change (alter (set_text n s) a h) with (set_clip_property a n s h).2.
  rewrite get_set_clip_property_same, Hv. simpl. by rewrite Hne, Hi.
Qed.

Lemma get_after_alter_other h a n n' s :
  n' ≠ n →
  get_clip_property (alter (set_text n s) a h) a n' = get_clip_property h a n'.
Proof.
  intros Hne.
  change (alter (set_text n s) a h) with (set_clip_property a n s h).2.
  apply get_set_clip_property_other. by right.
Qed.

Lemma limited_parse_other L h a n n' s d :
  n' ≠ n →
  Limited.parse_int_property L (alter (set_text n s) a h) a n' d
  = Limited.parse_int_property L h a n' d.
Proof.
  intros Hne. unfold Limited.parse_int_property.
  by rewrite get_after_alter_other.
Qed.

Lemma limited_parse_present L h a n :
  Limited.parse_int_property L h a n 0 ≠ 0 → is_Some (get_clip_property h a n).
Proof.
  unfold Limited.parse_int_property.
  destruct (get_clip_property h a n); [eauto | done].
Qed.

Ltac split_conversions L :=
  repeat match goal with
    | |- context [Limited.str L ?x] => destruct (Limited.str L x) eqn:?
    end.

(** X30. Under any limit on conversions, a transform that returns (it may
    raise instead) has not written partially: returning failure, or
    returning from a dry run, it leaves the store as it was; [apply_j_cut]
    returning success has updated [Start], [Duration] and [In] together,
    and [apply_l_cut] returning success has updated [Duration]. *)
Theorem limited_cut_returns_atomic (L : nat) (h : Store) (b : Boundary)
    (o : Z) (dry_run : bool) :
  match Limited.apply_j_cut L b o dry_run h with
  | (Returned (false, _), h') => h' = h
  | (Returned (true, _), h') =>
      (dry_run = true → h' = h)
      ∧ (dry_run = false →
         let a := audio_clip (clip_pair_after b) in
         Limited.parse_int_property L h' a "Start" 0
         = Limited.parse_int_property L h a "Start" 0 - o
         ∧ Limited.parse_int_property L h' a "Duration" 0
           = Limited.parse_int_property L h a "Duration" 0 + o
         ∧ Limited.parse_int_property L h' a "In" 0
           = Limited.parse_int_property L h a "In" 0 - o)
  | (Raised _, _) => True
  end
  ∧ match Limited.apply_l_cut L b o dry_run h with
    | (Returned (false, _), h') => h' = h
    | (Returned (true, _), h') =>
        (dry_run = true → h' = h)
        ∧ (dry_run = false →
           let a := audio_clip (clip_pair_before b) in
           Limited.parse_int_property L h' a "Duration" 0
           = Limited.parse_int_property L h a "Duration" 0 + o)
    | (Raised _, _) => True
    end.
Proof.
  split.
  - unfold Limited.apply_j_cut. run_limited o; [done|].
    split_tests; destruct dry_run; simpl; split_conversions L; try done.
    split; [done|]. intros _. cbv zeta.
    set (a := audio_clip (clip_pair_after b)) in *.
    assert (is_Some (get_clip_property h a "Start")) as Hs
      by (apply (limited_parse_present L); lia).
    assert (is_Some (get_clip_property h a "Duration")) as Hd
      by (apply (limited_parse_present L); lia).
    assert (is_Some (get_clip_property h a "In")) as Hi
      by (apply (limited_parse_present L); lia).
    split_and!.
    + rewrite !limited_parse_other by done.
      by apply limited_parse_after_set.
    + rewrite limited_parse_other by done.
      apply limited_parse_after_set; [done|].
      by rewrite get_after_alter_other.
    + apply limited_parse_after_set; [done|].
      by rewrite !get_after_alter_other.
  - unfold Limited.apply_l_cut. run_limited o; [done|].
    split_tests; destruct dry_run; simpl; split_conversions L; try done.
    split; [done|]. intros _. cbv zeta.
    apply limited_parse_after_set; [done|].
    apply (limited_parse_present L). lia.
Qed.

(** The detector finds the boundary between A and the long clip B. *)
Example long_boundary_found :
  find_eligible_boundaries long_timeline
    (find_clip_pairs long_timeline [1; 3]%positive [2; 4]%positive) 10
  = [long_boundary].
Proof. vm_compute. reflexivity. Qed.

(** C4 (code bug). Under the default limit of 4300 digits, the J-cut by one
    frame at the boundary before a clip whose [Duration] is 4300 nines
    passes validation (the duration is read, and no value would be
    negative), writes [Start], and raises [ValueError] when it converts the
    new duration, a number of 4301 digits: the failure is an exception and
    not a returned result, and the clip is left with [Start] updated from
    100 to 99 while [Duration] and [In] are as before. *)
Theorem j_cut_raises_after_partial_write :
  let a := audio_clip (clip_pair_after long_boundary) in
  let run := Limited.apply_j_cut 4300 long_boundary 1 false long_timeline in
  Limited.parse_int_property 4300 long_timeline a "Duration" 0
  = 10 ^ 4300 - 1
  ∧ run.1 = Raised ValueError
  ∧ get_clip_property long_timeline a "Start" = Some "100"
  ∧ get_clip_property run.2 a "Start" = Some "99"
  ∧ get_clip_property run.2 a "Duration"
    = get_clip_property long_timeline a "Duration"
  ∧ get_clip_property run.2 a "In" = get_clip_property long_timeline a "In"
  ∧ run.2 ≠ long_timeline.
Proof.
  cbv zeta.
  assert (Limited.apply_j_cut 4300 long_boundary 1 false long_timeline
          = (Raised ValueError,
             alter (set_text "Start" "99") 4%positive long_timeline)) as ->
    by (vm_compute; reflexivity).
  split_and!; [vm_compute; reflexivity..|].
  intros E%(f_equal (λ h, get_clip_property h 4%positive "Start")).
  vm_compute in E. discriminate E.
Qed.
